(** * RecordIO: framed records over a sequential file

    A shallow embedding of [recordio.h] / [recordio.cc] (namespace [file]):
    [RecordWriter] appends frames [magic | length | payload] to a
    [std::ofstream], [RecordReader] consumes them from a [std::ifstream].

    The streams are modelled by their observable state: the [iostate] bits,
    whether the file is open, the bytes written so far (sink) or still
    unread (source).  Integers are [Z] with their object representation
    written out as bytes; the heap used by [new char[n]] / [delete[]] is a
    finite map from block addresses to byte arrays. *)

From Stdlib Require Import ZArith List Strings.Byte Lia Bool.
From stdpp Require Import base option list gmap.

Open Scope Z_scope.

(** ** Bytes and object representations *)

Abbreviation byte := Byte.byte.

Definition Z_of_byte (b : byte) : Z := Z.of_N (Byte.to_N b).

Definition byte_of_Z (z : Z) : byte :=
  default Byte.x00 (Byte.of_N (Z.to_N (z mod 256))).

(** Byte order of the host: the code writes integers through
    [reinterpret_cast<const char*>], i.e. in the native representation. *)
Inductive endianness := LittleEndian | BigEndian.

Fixpoint le_encode (n : nat) (v : Z) : list byte :=
  match n with
  | O => []
  | S n' => byte_of_Z v :: le_encode n' (v / 256)
  end.

Fixpoint le_decode (bs : list byte) : Z :=
  match bs with
  | [] => 0
  | b :: bs' => Z_of_byte b + 256 * le_decode bs'
  end.

(** The [n]-byte object representation of the unsigned value [v mod 2^(8n)]
    and its inverse. *)
Definition encode_uint (order : endianness) (n : nat) (v : Z) : list byte :=
  match order with
  | LittleEndian => le_encode n v
  | BigEndian => rev (le_encode n v)
  end.

Definition decode_uint (order : endianness) (bs : list byte) : Z :=
  match order with
  | LittleEndian => le_decode bs
  | BigEndian => le_decode (rev bs)
  end.

(** Two's complement reading of an [n]-byte object. *)
Definition to_signed (n : nat) (u : Z) : Z :=
  if u <? 2 ^ (8 * Z.of_nat n - 1) then u else u - 2 ^ (8 * Z.of_nat n).

Definition decode_sint (order : endianness) (bs : list byte) : Z :=
  to_signed (length bs) (decode_uint order bs).

(** What [istream::read(dest, n)] leaves in the destination array when it
    extracted the characters [got]: the prefix is overwritten, the rest of
    the array keeps its old contents. *)
Definition stored (got dest : list byte) : list byte :=
  got ++ drop (length got) dest.

(** ** [std::ios_base::iostate] *)

Record iostate := IoState { badbit : bool; eofbit : bool; failbit : bool }.

Definition goodbit : iostate := IoState false false false.
Definition only_badbit : iostate := IoState true false false.
Definition only_failbit : iostate := IoState false false true.
Definition eof_and_fail : iostate := IoState false true true.

(** [basic_ios::setstate] ors the given bits into the state; nothing in
    this code ever calls [clear], so bits are never reset. *)
Definition ios_or (a b : iostate) : iostate :=
  IoState (badbit a || badbit b) (eofbit a || eofbit b) (failbit a || failbit b).

(** [basic_ios::good()] and [basic_ios::fail()]. *)
Definition good (st : iostate) : bool :=
  negb (badbit st || eofbit st || failbit st).

Definition fail (st : iostate) : bool := failbit st || badbit st.

(** [basic_filebuf::close()]: succeeds only on an open file whose flush
    and close succeed.  Returns [true] for the non-null result. *)
Definition filebuf_close (is_open close_ok : bool) : bool := is_open && close_ok.

(** ** [std::ofstream], the byte sink *)

Record ofstream := Ofstream {
  o_state : iostate;
  o_is_open : bool;
  o_written : list byte;  (* characters the sink has accepted so far *)
  o_room : option nat;    (* characters the device still accepts; [None]: no limit *)
  o_close_ok : bool       (* whether closing the open file will succeed *)
}.

Definition o_setstate (bits : iostate) (f : ofstream) : ofstream :=
  Ofstream (ios_or (o_state f) bits) (o_is_open f) (o_written f) (o_room f) (o_close_ok f).

(** The stream [f] after its sink took the characters [bs] and now has
    [room] left. *)
Definition o_append (f : ofstream) (bs : list byte) (room : option nat) : ofstream :=
  Ofstream (o_state f) (o_is_open f) (o_written f ++ bs) room (o_close_ok f).

(** How many characters the sink still takes; a file that is not open
    takes none. *)
Definition sink_room (f : ofstream) : option nat :=
  if o_is_open f then o_room f else Some O.

Definition sink_accepts (f : ofstream) (n : nat) : nat :=
  match sink_room f with
  | None => n
  | Some r => Nat.min n r
  end.

(** [ostream::write(s, n)]: an unformatted output function.  On a stream
    that is not [good()] the sentry fails and sets [failbit] (as the
    standard lets it), and nothing is written.  Otherwise the characters
    go to the sink; if the sink takes fewer than [n], [badbit] is set. *)
Definition ostream_write (f : ofstream) (s : list byte) (n : nat) : ofstream :=
  if good (o_state f) then
    let put := sink_accepts f n in
    let f' := Ofstream (o_state f) (o_is_open f) (o_written f ++ take put s)
                       (option_map (fun r => (r - put)%nat) (o_room f))
                       (o_close_ok f) in
    if (put =? n)%nat then f' else o_setstate only_badbit f'
  else o_setstate only_failbit f.

(** The event "this write failed": what [fail()] reports right after it. *)
Definition write_fails (f : ofstream) (n : nat) : bool :=
  negb (good (o_state f)) || negb (sink_accepts f n =? n)%nat.

(** [ofstream::close()]: closes the file buffer and sets [failbit] if that
    fails.  The state bits are not cleared. *)
Definition ofstream_close (f : ofstream) : ofstream :=
  let closed := Ofstream (o_state f) false (o_written f) (o_room f) (o_close_ok f) in
  if filebuf_close (o_is_open f) (o_close_ok f) then closed
  else o_setstate only_failbit closed.

(** ** [std::ifstream], the byte source *)

Record ifstream := Ifstream {
  i_state : iostate;
  i_is_open : bool;
  i_unread : list byte;   (* characters of the file not yet extracted *)
  i_close_ok : bool
}.

Definition i_setstate (bits : iostate) (f : ifstream) : ifstream :=
  Ifstream (ios_or (i_state f) bits) (i_is_open f) (i_unread f) (i_close_ok f).

(** The stream [f] positioned so that [rest] is what remains unread. *)
Definition i_at (f : ifstream) (rest : list byte) : ifstream :=
  Ifstream (i_state f) (i_is_open f) rest (i_close_ok f).

(** A file that is not open yields no characters. *)
Definition source (f : ifstream) : list byte :=
  if i_is_open f then i_unread f else [].

(** [istream::read(dest, n)]: an unformatted input function.  On a stream
    that is not [good()] the sentry fails, [failbit] is set and nothing is
    extracted.  Otherwise up to [n] characters are extracted; reaching the
    end of the source before [n] characters sets [eofbit | failbit].  The
    result carries the extracted characters (the caller's array receives
    them through [stored]). *)
Definition istream_read (f : ifstream) (n : nat) : ifstream * list byte :=
  if good (i_state f) then
    let got := take n (source f) in
    let f' := Ifstream (i_state f) (i_is_open f)
                       (drop (length got) (i_unread f)) (i_close_ok f) in
    if (length got =? n)%nat then (f', got)
    else (i_setstate eof_and_fail f', got)
  else (i_setstate only_failbit f, []).

Definition ifstream_close (f : ifstream) : ifstream :=
  let closed := Ifstream (i_state f) false (i_unread f) (i_close_ok f) in
  if filebuf_close (i_is_open f) (i_close_ok f) then closed
  else i_setstate only_failbit closed.

(** A freshly opened output file on a device without a size limit, and a
    freshly opened input file holding [content]. *)
Definition fresh_ofstream : ofstream := Ofstream goodbit true [] None true.
Definition open_ifstream (content : list byte) : ifstream :=
  Ifstream goodbit true content true.

(** ** The platform *)

(** What the C++ source leaves to the implementation: the byte order, the
    width of [size_t], and the contents of storage that was never written
    ([indeterminate i] is the junk found at offset [i]).  [int] is 32 bits
    wide. *)
Class Platform := {
  byte_order : endianness;
  sizeof_size_t : nat;
  indeterminate : nat -> byte
}.

Definition sizeof_int : nat := 4.

(** ** The heap of [new char[n]] / [delete[]] *)

(** Blocks are indexed by their address.  [new_array] below is the
    allocation that succeeds; a [new char[n]] that cannot be satisfied
    throws [std::bad_alloc], which the module [BoundedHeap] adds to
    [ReadRecord], the one place where the size comes from the file. *)
Abbreviation heap := (gmap positive (list byte)).

(** A [const char*]: [None] is [nullptr]. *)
Abbreviation pointer := (option positive).

Definition uninitialized `{Platform} (n : nat) : list byte :=
  indeterminate <$> seq 0 n.

Definition new_array `{Platform} (h : heap) (n : nat) : heap * positive :=
  let p := fresh (dom h) in (<[p := uninitialized n]> h, p).

Definition delete_array (h : heap) (p : positive) : heap := delete p h.

(** The first [n] characters found behind a pointer. *)
Definition load (h : heap) (p : pointer) (n : nat) : list byte :=
  match p with
  | Some a => take n (default [] (h !! a))
  | None => []
  end.

(** ** [RecordWriter] *)

Module RecordWriter.
Section Writer.
Context `{Platform}.

(** [const int RecordWriter::kMagicNumber = 0x3ed7230a;] *)
Definition kMagicNumber : Z := 0x3ed7230a.

(** [bool WriteRecord(const char* buffer, size_t len)].  The writer only
    holds the pointer [file_]; the stream is threaded through. *)
Definition WriteRecord (file_ : ofstream) (buffer : list byte) (len : Z)
  : ofstream * bool :=
  let file_ := ostream_write file_
                 (encode_uint byte_order sizeof_int kMagicNumber) sizeof_int in
  let file_ := ostream_write file_
                 (encode_uint byte_order sizeof_size_t len) sizeof_size_t in
  let file_ := ostream_write file_ buffer (Z.to_nat len) in
  (file_, negb (fail (o_state file_))).

(** [bool WriteRecord(const std::string& data)] *)
Definition WriteRecord_string (file_ : ofstream) (data : list byte)
  : ofstream * bool :=
  WriteRecord file_ data (Z.of_nat (length data)).

(** [template <typename T> bool Write(const T& t)]: [t] is given by its
    object representation, [sizeof_T] characters. *)
Definition Write (sizeof_T : nat) (file_ : ofstream) (t : list byte)
  : ofstream * bool :=
  WriteRecord file_ t (Z.of_nat sizeof_T).

(** [bool Close()] *)
Definition Close (file_ : ofstream) : ofstream * bool :=
  let file_ := ofstream_close file_ in
  (file_, fail (o_state file_)).

(** Writing a sequence of records, one call each, in order. *)
Fixpoint WriteRecords (file_ : ofstream) (records : list (list byte))
  : ofstream * list bool :=
  match records with
  | [] => (file_, [])
  | data :: rest =>
      let '(file_, ok) := WriteRecord_string file_ data in
      let '(file_, oks) := WriteRecords file_ rest in
      (file_, ok :: oks)
  end.
End Writer.
End RecordWriter.

(** ** [RecordReader] *)

Module RecordReader.
Section Reader.
Context `{Platform}.

(** Result of the raw [ReadRecord]: the return value, the stream and
    heap afterwards, and the caller's [*buffer] and [*len]. *)
Record raw_result := RawResult {
  raw_ok : bool;
  raw_file : ifstream;
  raw_heap : heap;
  raw_buffer : pointer;
  raw_len : Z
}.

(** [bool ReadRecord(const char** buffer, size_t* len)]; [len] is the
    value the caller's [size_t] holds on entry. *)
Definition ReadRecord (file_ : ifstream) (h : heap) (len : Z) : raw_result :=
  let magic_number := encode_uint byte_order sizeof_int 0 in
  let buffer : pointer := None in
  let '(file_, got) := istream_read file_ sizeof_int in
  let magic_number := stored got magic_number in
  if fail (i_state file_)
     || negb (decode_sint byte_order magic_number =? RecordWriter.kMagicNumber)
  then RawResult false file_ h buffer len
  else
    let '(file_, got) := istream_read file_ sizeof_size_t in
    let len := decode_uint byte_order
                 (stored got (encode_uint byte_order sizeof_size_t len)) in
    if fail (i_state file_) then RawResult false file_ h buffer len
    else
      let '(h, data) := new_array h (Z.to_nat len) in
      let '(file_, got) := istream_read file_ (Z.to_nat len) in
      let h := alter (stored got) data h in
      if fail (i_state file_)
      then RawResult false file_ (delete_array h data) buffer len
      else RawResult true file_ h (Some data) len.

(** Result of the string [ReadRecord]: the return value, the stream and
    heap afterwards, and the caller's string. *)
Record string_result := StringResult {
  str_ok : bool;
  str_file : ifstream;
  str_heap : heap;
  str_data : list byte
}.

(** [bool ReadRecord(std::string* data)] *)
Definition ReadRecord_string (file_ : ifstream) (h : heap) (data : list byte)
  : string_result :=
  let size := 0 in
  let r := ReadRecord file_ h size in
  if negb (raw_ok r) then StringResult false (raw_file r) (raw_heap r) data
  else
    let data := load (raw_heap r) (raw_buffer r) (Z.to_nat (raw_len r)) in
    let h := match raw_buffer r with
             | Some p => delete_array (raw_heap r) p
             | None => raw_heap r
             end in
    StringResult true (raw_file r) h data.

(** Result of the fixed-size readers: the return value, the stream
    afterwards, and the caller's storage as the call leaves it. *)
Record sized_result := SizedResult {
  sized_ok : bool;
  sized_file : ifstream;
  sized_buffer : list byte
}.

(** [bool ReadRecordSized(char* buffer, size_t len)] *)
Definition ReadRecordSized (file_ : ifstream) (buffer : list byte) (len : Z)
  : sized_result :=
  let magic_number := encode_uint byte_order sizeof_int 0 in
  let '(file_, got) := istream_read file_ sizeof_int in
  let magic_number := stored got magic_number in
  if fail (i_state file_)
     || negb (decode_sint byte_order magic_number =? RecordWriter.kMagicNumber)
  then SizedResult false file_ buffer
  else
    let read_len := uninitialized sizeof_size_t in
    let '(file_, got) := istream_read file_ sizeof_size_t in
    let read_len := decode_uint byte_order (stored got read_len) in
    if fail (i_state file_) || negb (read_len =? len)
    then SizedResult false file_ buffer
    else
      let '(file_, got) := istream_read file_ (Z.to_nat len) in
      SizedResult (negb (fail (i_state file_))) file_ (stored got buffer).

(** [template <typename T> bool Read(T* t)]: [t] is the object
    representation of the destination, [sizeof_T] characters. *)
Definition Read (sizeof_T : nat) (file_ : ifstream) (t : list byte)
  : sized_result :=
  ReadRecordSized file_ t (Z.of_nat sizeof_T).

(** [bool Close()] *)
Definition Close (file_ : ifstream) : ifstream * bool :=
  let file_ := ifstream_close file_ in
  (file_, fail (i_state file_)).

(** Calling the raw [ReadRecord] [k] times in a row, each time with a
    zeroed [size_t], and collecting what each call hands to the caller:
    the payload behind [*buffer] on success, nothing on failure. *)
Fixpoint ReadRecords (k : nat) (file_ : ifstream) (h : heap)
  : list (option (list byte)) :=
  match k with
  | O => []
  | S k' =>
      let r := ReadRecord file_ h 0 in
      (if raw_ok r
       then Some (load (raw_heap r) (raw_buffer r) (Z.to_nat (raw_len r)))
       else None)
      :: ReadRecords k' (raw_file r) (raw_heap r)
  end.
End Reader.
End RecordReader.

(** ** The frame of the file format *)

(** [Frame := magic:int32 length:uint(native width) payload:byte[length]],
    as the format is documented. *)
Definition magic_bytes `{Platform} : list byte :=
  encode_uint byte_order sizeof_int RecordWriter.kMagicNumber.

Definition size_bytes `{Platform} (len : Z) : list byte :=
  encode_uint byte_order sizeof_size_t len.

Definition frame `{Platform} (payload : list byte) : list byte :=
  magic_bytes ++ size_bytes (Z.of_nat (length payload)) ++ payload.

(** The largest value of [size_t], plus one. *)
Definition size_t_modulus `{Platform} : Z := 2 ^ (8 * Z.of_nat sizeof_size_t).

(** The fixed-size record stored by the application: [struct Thumbnail]
    with [char filename[256]] and [uint8_t pixels[3 * 20 * 15]]. *)
Record Thumbnail := { filename : list byte; pixels : list byte }.

Definition sizeof_Thumbnail : nat := 256 + 3 * 20 * 15.

Definition Thumbnail_bytes (t : Thumbnail) : list byte :=
  resize 256 Byte.x00 (filename t) ++ resize (3 * 20 * 15) Byte.x00 (pixels t).

(** A 64-bit little-endian host and a 32-bit big-endian one. *)
Definition lp64_le : Platform :=
  {| byte_order := LittleEndian; sizeof_size_t := 8;
     indeterminate := fun _ => Byte.xcc |}.

Definition ilp32_be : Platform :=
  {| byte_order := BigEndian; sizeof_size_t := 4;
     indeterminate := fun i => byte_of_Z (Z.of_nat i) |}.

(** ** [ReadRecord] with an allocation that can fail *)

(** [new char[*len]] in [ReadRecord] asks for as many characters as the
    length field of the file says.  [available] is the largest array the
    allocator can provide at that moment; a larger request throws
    [std::bad_alloc], which nothing in the code catches, so the call does
    not return.  On a 64-bit host no array exceeds [PTRDIFF_MAX], so
    [available] is at most [2^63 - 1] there. *)
Module BoundedHeap.
Section Bounded.
Context `{Platform}.
Variable available : Z.

(** How a call ends: it returns, or it throws with the stream, the heap
    and the caller's [*buffer] and [*len] as they are at the throw. *)
Inductive outcome :=
| Returned (r : RecordReader.raw_result)
| Threw_bad_alloc (file_ : ifstream) (h : heap) (buffer : pointer) (len : Z).

(** [bool ReadRecord(const char** buffer, size_t* len)] *)
Definition ReadRecord (file_ : ifstream) (h : heap) (len : Z) : outcome :=
  let magic_number := encode_uint byte_order sizeof_int 0 in
  let buffer : pointer := None in
  let '(file_, got) := istream_read file_ sizeof_int in
  let magic_number := stored got magic_number in
  if fail (i_state file_)
     || negb (decode_sint byte_order magic_number =? RecordWriter.kMagicNumber)
  then Returned (RecordReader.RawResult false file_ h buffer len)
  else
    let '(file_, got) := istream_read file_ sizeof_size_t in
    let len := decode_uint byte_order
                 (stored got (encode_uint byte_order sizeof_size_t len)) in
    if fail (i_state file_)
    then Returned (RecordReader.RawResult false file_ h buffer len)
    else if available <? len then Threw_bad_alloc file_ h buffer len
    else
      let '(h, data) := new_array h (Z.to_nat len) in
      let '(file_, got) := istream_read file_ (Z.to_nat len) in
      let h := alter (stored got) data h in
      if fail (i_state file_)
      then Returned (RecordReader.RawResult false file_ (delete_array h data)
                       buffer len)
      else Returned (RecordReader.RawResult true file_ h (Some data) len).
End Bounded.
End BoundedHeap.

(** ** Protocol messages *)

(** [RecordWriter::WriteProtocolMessage] and
    [RecordReader::ReadProtocolMessage].  The message class belongs to the
    protobuf library: its two methods used here are parameters.
    [ParseFromArray] returns the message as the call leaves it and its
    boolean result. *)
Module ProtocolMessages.
Section Messages.
Context `{Platform}.
Context {MessageLite : Type}.
Variable SerializeAsString : MessageLite -> list byte.
Variable ParseFromArray : MessageLite -> list byte -> MessageLite * bool.

(** [bool WriteProtocolMessage(const MessageLite& message)] *)
Definition WriteProtocolMessage (file_ : ofstream) (message : MessageLite)
  : ofstream * bool :=
  RecordWriter.WriteRecord_string file_ (SerializeAsString message).

Record message_result := MessageResult {
  msg_ok : bool;
  msg_file : ifstream;
  msg_heap : heap;
  msg_message : MessageLite
}.

(** [bool ReadProtocolMessage(MessageLite* message)].  The return after a
    failed parse comes before the [delete[]]. *)
Definition ReadProtocolMessage (file_ : ifstream) (h : heap) (message : MessageLite)
  : message_result :=
  let size := 0 in
  let r := RecordReader.ReadRecord file_ h size in
  if negb (RecordReader.raw_ok r)
  then MessageResult false (RecordReader.raw_file r) (RecordReader.raw_heap r) message
  else
    let '(message, parsed) :=
      ParseFromArray message
        (load (RecordReader.raw_heap r) (RecordReader.raw_buffer r)
              (Z.to_nat (RecordReader.raw_len r))) in
    if negb parsed
    then MessageResult false (RecordReader.raw_file r) (RecordReader.raw_heap r)
           message
    else
      let h := match RecordReader.raw_buffer r with
               | Some p => delete_array (RecordReader.raw_heap r) p
               | None => RecordReader.raw_heap r
               end in
      MessageResult true (RecordReader.raw_file r) h message.
End Messages.
End ProtocolMessages.

(** ** The thumbnail library of the application *)

(** [int] arithmetic: the value an [int] holds after a computation whose
    exact result is [z]. *)
Definition wrap_int (z : Z) : Z :=
  to_signed sizeof_int (z mod 2 ^ (8 * Z.of_nat sizeof_int)).

Definition INT_MAX : Z := 2147483647.

(** [a[i]] for an array of [uint8_t], promoted to [int]. *)
Definition at_index (a : list byte) (i : nat) : Z :=
  Z_of_byte (default Byte.x00 (a !! i)).

(** The storage of a [Thumbnail] read as the struct: the first 256
    characters are [filename], the next [3 * 20 * 15] are [pixels]. *)
Definition Thumbnail_of_bytes (l : list byte) : Thumbnail :=
  {| filename := take 256 l; pixels := take (3 * 20 * 15) (drop 256 l) |}.

(** [Thumbnail()]: value-initialised, all characters zero. *)
Definition Thumbnail_zero : Thumbnail :=
  {| filename := replicate 256 Byte.x00;
     pixels := replicate (3 * 20 * 15) Byte.x00 |}.

(** A [Thumbnail] whose arrays have their declared sizes. *)
Definition Thumbnail_wf (t : Thumbnail) : Prop :=
  length (filename t) = 256%nat /\ length (pixels t) = (3 * 20 * 15)%nat.

(** [class ThumbnailLibrary]; its state is the vector [thumbnails_].  The
    streams that [Write] and [Read] open by file name are parameters. *)
Module ThumbnailLibrary.
Section Library.
Context `{Platform}.

(** [void Add(const Thumbnail& thumbnail)] *)
Definition Add (thumbnails_ : list Thumbnail) (thumbnail : Thumbnail)
  : list Thumbnail :=
  thumbnails_ ++ [thumbnail].

(** [void Write(const std::string& filename) const]; [output] is the
    stream as opened.  The results of [Write<Thumbnail>] and [Close] are
    not looked at. *)
Definition Write (thumbnails_ : list Thumbnail) (output : ofstream) : ofstream :=
  let output :=
    fold_left
      (fun output thumbnail =>
         fst (RecordWriter.Write sizeof_Thumbnail output (Thumbnail_bytes thumbnail)))
      thumbnails_ output in
  fst (RecordWriter.Close output).

(** The loop [while (record_reader.Read<Thumbnail>(&thumbnails_.back()))
    thumbnails_.push_back(Thumbnail());].  [Read] stores into the last
    element of the vector whether it succeeds or not.  [None] when [fuel]
    iterations did not reach the end of the loop. *)
Fixpoint Read_loop (fuel : nat) (input : ifstream) (thumbnails_ : list Thumbnail)
  : option (ifstream * list Thumbnail) :=
  match fuel with
  | O => None
  | S fuel' =>
      let r := RecordReader.Read sizeof_Thumbnail input
                 (Thumbnail_bytes (List.last thumbnails_ Thumbnail_zero)) in
      let thumbnails_ :=
        removelast thumbnails_
        ++ [Thumbnail_of_bytes (RecordReader.sized_buffer r)] in
      if RecordReader.sized_ok r
      then Read_loop fuel' (RecordReader.sized_file r) (thumbnails_ ++ [Thumbnail_zero])
      else Some (RecordReader.sized_file r, thumbnails_)
  end.

(** [void Read(const std::string& filename)]; [input] is the stream as
    opened, [thumbnails_] the vector on entry.  Each round of the loop
    takes characters from the stream, so one round per unread character
    and one more are enough. *)
Definition Read (thumbnails_ : list Thumbnail) (input : ifstream)
  : option (ifstream * list Thumbnail) :=
  let thumbnails_ : list Thumbnail := [] in
  let thumbnails_ := thumbnails_ ++ [Thumbnail_zero] in
  match Read_loop (S (length (i_unread input))) input thumbnails_ with
  | None => None
  | Some (input, thumbnails_) =>
      let thumbnails_ := removelast thumbnails_ in
      Some (fst (RecordReader.Close input), thumbnails_)
  end.

(** The inner loop of [FindClosest]: the sum of the squared differences
    of the [3 * 20 * 15] pixel values, in [int] arithmetic. *)
Definition pixel_diff (pixels thumbnail_pixels : list byte) : Z :=
  fold_left
    (fun diff i =>
       wrap_int (diff
                 + wrap_int (wrap_int (at_index pixels i - at_index thumbnail_pixels i)
                             * wrap_int (at_index pixels i - at_index thumbnail_pixels i))))
    (seq 0 (3 * 20 * 15)) 0.

(** One round of the outer loop: [best] is the position in [thumbnails_]
    the pointer refers to, [None] for [nullptr]. *)
Definition FindClosest_step (pixels : list byte)
    (state : option nat * Z) (entry : nat * list byte) : option nat * Z :=
  let '(best, best_diff) := state in
  let '(position, thumbnail_pixels) := entry in
  let diff := pixel_diff pixels thumbnail_pixels in
  if diff <? best_diff then (Some position, diff) else (best, best_diff).

(** [const Thumbnail* FindClosest(const uint8_t* pixels) const] *)
Definition FindClosest (thumbnails_ : list Thumbnail) (pixels : list byte)
  : option nat :=
  let best : option nat := None in
  let best_diff := INT_MAX in
  fst (fold_left (FindClosest_step pixels)
         (zip (seq 0 (length thumbnails_))
              ((fun thumbnail => match thumbnail with
                                 | {| pixels := thumbnail_pixels |} => thumbnail_pixels
                                 end) <$> thumbnails_))
         (best, best_diff)).
End Library.
End ThumbnailLibrary.

(** The squared distance of two pixel arrays as a number: what
    [pixel_diff] is meant to compute. *)
Definition squared_distance (a b : list byte) : Z :=
  fold_right (fun i acc => (at_index a i - at_index b i) ^ 2 + acc) 0
    (seq 0 (3 * 20 * 15)).

(** The characters of a library file: one frame per thumbnail. *)
Definition library_file `{Platform} (thumbnails : list Thumbnail) : list byte :=
  concat (frame <$> (Thumbnail_bytes <$> thumbnails)).

(** The length of one record's frame in a library file. *)
Definition record_size `{Platform} : nat :=
  (sizeof_int + sizeof_size_t + sizeof_Thumbnail)%nat.

(** ** The mosaic *)

(** [class Mosaic]: [Build] cuts the 1600 x 1200 image behind
    [original.data] (three characters per pixel, row by row) into 80 x 80
    tiles of 20 x 15 pixels and stores the closest thumbnail of each.
    The [int] indices are natural numbers here; they stay far below
    [INT_MAX]. *)
Module Mosaic.
Section Build.
Context `{Platform}.

(** The index into [original.data] of channel [k] of pixel [(x, y)] of
    tile [(r, c)]. *)
Definition source_index (r c y x k : nat) : nat :=
  let orig_y := (r * 15 + y)%nat in
  let orig_x := (c * 20 + x)%nat in
  (3 * (1600 * orig_y + orig_x) + k)%nat.

(** [original.data[i]] *)
Definition data_at (data : list byte) (i : nat) : byte :=
  default Byte.x00 (data !! i).

(** The body of the innermost loop: three assignments into [pixels]. *)
Definition copy_pixel (data : list byte) (r c y x : nat) (pixels : list byte)
  : list byte :=
  let pixels :=
    <[(3 * (20 * y + x) + 0)%nat := data_at data (source_index r c y x 0)]> pixels in
  let pixels :=
    <[(3 * (20 * y + x) + 1)%nat := data_at data (source_index r c y x 1)]> pixels in
  let pixels :=
    <[(3 * (20 * y + x) + 2)%nat := data_at data (source_index r c y x 2)]> pixels in
  pixels.

(** The loops over [y] and [x] for one tile. *)
Definition copy_tile (data : list byte) (r c : nat) (pixels : list byte)
  : list byte :=
  fold_left
    (fun pixels y =>
       fold_left (fun pixels x => copy_pixel data r c y x pixels) (seq 0 20) pixels)
    (seq 0 15) pixels.

(** [void Build(const cv::Mat& original)]: the vector [mosaic_] it leaves,
    each element the position of a thumbnail in the library or [None]
    for a null pointer. *)
Definition Build (library_ : list Thumbnail) (data : list byte)
  : list (option nat) :=
  let pixels := uninitialized (3 * 20 * 15) in
  let mosaic_ : list (option nat) := [] in
  fst (fold_left
         (fun state r =>
            fold_left
              (fun '(mosaic_, pixels) c =>
                 (mosaic_
                  ++ [ThumbnailLibrary.FindClosest library_
                        (copy_tile data r c pixels)],
                  copy_tile data r c pixels))
              (seq 0 80) state)
         (seq 0 80) (mosaic_, pixels)).

(** The pixels of tile [(r, c)] as the image holds them: the rows of the
    tile from the top, each from the left, three characters a pixel. *)
Definition tile (data : list byte) (r c : nat) : list byte :=
  flat_map
    (fun y =>
       flat_map
         (fun x => [data_at data (source_index r c y x 0);
                    data_at data (source_index r c y x 1);
                    data_at data (source_index r c y x 2)])
         (seq 0 20))
    (seq 0 15).
End Build.
End Mosaic.

(** ** Splitting the list of ignored directories *)

#[global] Instance byte_eq_decision : EqDecision byte := Byte.byte_eq_dec.

#[global] Instance byte_countable : Countable byte :=
  inj_countable Byte.to_N Byte.of_N Byte.of_to_N.

Definition only_eofbit : iostate := IoState false true false.

(** A [std::stringstream] that is only read: its state bits and the
    characters not yet extracted. *)
Record stringstream := StringStream {
  ss_state : iostate;
  ss_unread : list byte
}.

(** The characters [std::getline] takes from [s]: up to the first [delim],
    which is extracted but not stored, or up to the end.  The second
    component is what stays unread, [None] when the end was reached. *)
Fixpoint extract_line (s : list byte) (delim : byte)
  : list byte * option (list byte) :=
  match s with
  | [] => ([], None)
  | c :: s' =>
      if Byte.eqb c delim then ([], Some s')
      else let '(line, rest) := extract_line s' delim in (c :: line, rest)
  end.

(** [std::getline(is, str, delim)].  On a stream that is not good the
    sentry sets [failbit] and [str] is left alone.  Otherwise [str] is
    erased and filled; reaching the end sets [eofbit], and extracting no
    character at all sets [failbit].  The limit [str.max_size()] is not
    modelled. *)
Definition getline (is_ : stringstream) (str : list byte) (delim : byte)
  : stringstream * list byte :=
  if good (ss_state is_) then
    match extract_line (ss_unread is_) delim with
    | (line, Some rest) => (StringStream (ss_state is_) rest, line)
    | (line, None) =>
        let bits := match line with
                    | [] => eof_and_fail
                    | _ :: _ => only_eofbit
                    end in
        (StringStream (ios_or (ss_state is_) bits) [], line)
    end
  else (StringStream (ios_or (ss_state is_) only_failbit) (ss_unread is_), str).

(** The loop [while (std::getline(ss, temp, delim)) result.insert(temp);]
    of [Split]; [None] when [fuel] rounds were not enough. *)
Fixpoint Split_loop (fuel : nat) (ss : stringstream) (temp : list byte)
    (result : gset (list byte)) (delim : byte) : option (gset (list byte)) :=
  match fuel with
  | O => None
  | S fuel' =>
      let '(ss, temp) := getline ss temp delim in
      if fail (ss_state ss) then Some result
      else Split_loop fuel' ss temp ({[ temp ]} ∪ result) delim
  end.

(** [std::set<std::string> Split(const std::string& str, const char delim)].
    Every round but the last takes at least one character, so one round
    per character and one more are enough. *)
Definition Split (str : list byte) (delim : byte) : option (gset (list byte)) :=
  let ss := StringStream goodbit str in
  let result : gset (list byte) := ∅ in
  let temp : list byte := [] in
  Split_loop (S (length str)) ss temp result delim.

(** The fields joined by the delimiter, as a blacklist is written down. *)
Fixpoint join (delim : byte) (fields : list (list byte)) : list byte :=
  match fields with
  | [] => []
  | [field] => field
  | field :: rest => field ++ delim :: join delim rest
  end.

(** ** Lemmas on the representations *)

Lemma Z_of_byte_range b : 0 <= Z_of_byte b < 256.
Proof.
  unfold Z_of_byte. pose proof (Byte.to_N_bounded b). lia.
Qed.

Lemma byte_of_Z_of_byte b : byte_of_Z (Z_of_byte b) = b.
Proof.
  unfold byte_of_Z. pose proof (Z_of_byte_range b) as Hr.
  rewrite Z.mod_small by lia. unfold Z_of_byte.
  rewrite N2Z.id, Byte.of_to_N. reflexivity.
Qed.

Lemma Z_of_byte_of_Z z : Z_of_byte (byte_of_Z z) = z mod 256.
Proof.
  unfold byte_of_Z, Z_of_byte.
  pose proof (Z.mod_pos_bound z 256 ltac:(lia)) as Hr.
  destruct (Byte.of_N (Z.to_N (z mod 256))) as [b|] eqn:E.
  - apply Byte.to_of_N in E. simpl. rewrite E. lia.
  - apply Byte.of_N_None_iff in E. lia.
Qed.

Lemma length_le_encode n v : length (le_encode n v) = n.
Proof. revert v. induction n as [|n IH]; intros v; simpl; [|rewrite IH]; reflexivity. Qed.

Lemma length_encode_uint order n v : length (encode_uint order n v) = n.
Proof.
  destruct order; simpl; [|rewrite length_rev]; apply length_le_encode.
Qed.

Lemma le_decode_range bs : 0 <= le_decode bs < 2 ^ (8 * Z.of_nat (length bs)).
Proof.
  induction bs as [|b bs IH].
  - simpl. lia.
  - cbn [le_decode length]. pose proof (Z_of_byte_range b).
    replace (8 * Z.of_nat (S (length bs))) with (8 + 8 * Z.of_nat (length bs)) by lia.
    rewrite Z.pow_add_r by lia. change (2 ^ 8) with 256. nia.
Qed.

Lemma le_decode_encode n v :
  le_decode (le_encode n v) = v mod 2 ^ (8 * Z.of_nat n).
Proof.
  revert v. induction n as [|n IH]; intros v.
  - simpl. rewrite Z.mod_1_r. reflexivity.
  - cbn [le_encode le_decode]. rewrite IH, Z_of_byte_of_Z.
    replace (8 * Z.of_nat (S n)) with (8 + 8 * Z.of_nat n) by lia.
    rewrite Z.pow_add_r by lia. change (2 ^ 8) with 256.
    rewrite Z.rem_mul_r by lia. reflexivity.
Qed.

Lemma le_encode_decode bs : le_encode (length bs) (le_decode bs) = bs.
Proof.
  induction bs as [|b bs IH]; [reflexivity|].
  cbn [le_encode le_decode length]. pose proof (Z_of_byte_range b).
  assert (Hm : (Z_of_byte b + 256 * le_decode bs) mod 256 = Z_of_byte b).
  { rewrite (Z.mul_comm 256), Z.mod_add by lia. apply Z.mod_small; lia. }
  assert (Hd : (Z_of_byte b + 256 * le_decode bs) / 256 = le_decode bs).
  { rewrite (Z.mul_comm 256), Z.div_add by lia.
    rewrite Z.div_small by lia. lia. }
  rewrite Hd, IH. f_equal.
  rewrite <- (byte_of_Z_of_byte b) at 2.
  unfold byte_of_Z. rewrite Hm. rewrite Z.mod_small by lia. reflexivity.
Qed.

Lemma decode_encode_uint order n v :
  decode_uint order (encode_uint order n v) = v mod 2 ^ (8 * Z.of_nat n).
Proof.
  destruct order; simpl; [|rewrite rev_involutive]; apply le_decode_encode.
Qed.

Lemma decode_encode_uint_small order n v :
  0 <= v < 2 ^ (8 * Z.of_nat n) ->
  decode_uint order (encode_uint order n v) = v.
Proof. intros H. rewrite decode_encode_uint. apply Z.mod_small, H. Qed.

Lemma encode_decode_uint order bs :
  encode_uint order (length bs) (decode_uint order bs) = bs.
Proof.
  destruct order; simpl.
  - apply le_encode_decode.
  - rewrite <- (length_rev bs), le_encode_decode. apply rev_involutive.
Qed.

Lemma decode_uint_range order bs :
  0 <= decode_uint order bs < 2 ^ (8 * Z.of_nat (length bs)).
Proof.
  destruct order; simpl; [apply le_decode_range|].
  rewrite <- (length_rev bs). apply le_decode_range.
Qed.

Lemma stored_full (got dest : list byte) :
  (length dest <= length got)%nat -> stored got dest = got.
Proof.
  intros H. unfold stored. rewrite drop_ge by lia. apply app_nil_r.
Qed.

Lemma stored_nil (dest : list byte) : stored [] dest = dest.
Proof. reflexivity. Qed.

Lemma length_stored (got dest : list byte) :
  (length got <= length dest)%nat -> length (stored got dest) = length dest.
Proof.
  intros H. unfold stored. rewrite length_app, length_drop. lia.
Qed.

(** ** Stream state *)

Lemma fail_ios_or a b : fail (ios_or a b) = fail a || fail b.
Proof. destruct a as [[] [] []], b as [[] [] []]; reflexivity. Qed.

Lemma good_not_fail st : good st = true -> fail st = false.
Proof. destruct st as [[] [] []]; cbv; intros; congruence. Qed.

Lemma fail_not_good st : fail st = true -> good st = false.
Proof. destruct st as [[] [] []]; cbv; intros; congruence. Qed.

Lemma good_ios_or_fail st : good (ios_or st only_failbit) = false.
Proof. destruct st as [[] [] []]; reflexivity. Qed.

Lemma good_ios_or_bad st : good (ios_or st only_badbit) = false.
Proof. destruct st as [[] [] []]; reflexivity. Qed.

Lemma good_ios_or_eof st : good (ios_or st eof_and_fail) = false.
Proof. destruct st as [[] [] []]; reflexivity. Qed.

Lemma good_ios_or_eofbit_only st : good (ios_or st only_eofbit) = false.
Proof. destruct st as [[] [] []]; reflexivity. Qed.

(** ** [ostream::write] *)

(** [fail()] right after a write tells exactly whether that write failed. *)
Lemma ostream_write_fail f s n :
  fail (o_state (ostream_write f s n)) = write_fails f n.
Proof.
  unfold ostream_write, write_fails.
  destruct (good (o_state f)) eqn:Hg; cbn [negb orb].
  - destruct (sink_accepts f n =? n)%nat; cbn [negb o_state o_setstate].
    + apply good_not_fail, Hg.
    + rewrite fail_ios_or. apply orb_true_r.
  - cbn [o_state o_setstate]. rewrite fail_ios_or. apply orb_true_r.
Qed.

(** The error bits are sticky: a write on a stream that is not good writes
    nothing and leaves it not good. *)
Lemma ostream_write_not_good f s n :
  good (o_state f) = false ->
  good (o_state (ostream_write f s n)) = false
  /\ o_written (ostream_write f s n) = o_written f.
Proof.
  intros Hg. unfold ostream_write. rewrite Hg. cbn.
  split; [apply good_ios_or_fail | reflexivity].
Qed.

(** A write on a good stream whose sink has no limit. *)
Lemma ostream_write_unlimited f s n :
  good (o_state f) = true -> sink_room f = None ->
  ostream_write f s n = o_append f (take n s) None.
Proof.
  intros Hg Hr. unfold ostream_write, sink_accepts. rewrite Hg, Hr.
  rewrite Nat.eqb_refl. unfold sink_room in Hr. unfold o_append.
  destruct (o_is_open f); [|discriminate]. rewrite Hr. reflexivity.
Qed.

(** A write on a good stream whose sink takes [r] more characters: the
    sink keeps what it took; the stream stays good exactly when all [n]
    characters fitted. *)
Lemma ostream_write_room f s n r :
  good (o_state f) = true -> sink_room f = Some r ->
  o_written (ostream_write f s n) = o_written f ++ take r (take n s)
  /\ if (n <=? r)%nat
     then good (o_state (ostream_write f s n)) = true
          /\ sink_room (ostream_write f s n) = Some (r - n)%nat
     else fail (o_state (ostream_write f s n)) = true.
Proof.
  intros Hg Hr. unfold ostream_write, sink_accepts. rewrite Hg, Hr.
  rewrite take_take, (Nat.min_comm r n).
  destruct (Nat.leb_spec n r) as [Hle|Hlt].
  - rewrite Nat.min_l by lia. rewrite Nat.eqb_refl. cbn.
    split; [reflexivity|]. split; [exact Hg|].
    unfold sink_room in *. cbn. destruct (o_is_open f).
    + rewrite Hr. reflexivity.
    + injection Hr as <-. reflexivity.
  - rewrite Nat.min_r by lia.
    destruct (Nat.eqb_spec r n) as [->|_]; [lia|]. cbn.
    split; [reflexivity|]. rewrite fail_ios_or. apply orb_true_r.
Qed.

Lemma ostream_write_failed f s n :
  fail (o_state f) = true ->
  fail (o_state (ostream_write f s n)) = true
  /\ o_written (ostream_write f s n) = o_written f.
Proof.
  intros Hf. unfold ostream_write. rewrite (fail_not_good _ Hf). cbn.
  rewrite fail_ios_or, Hf. split; reflexivity.
Qed.

Lemma sink_room_o_append f bs room :
  o_is_open f = true -> sink_room (o_append f bs room) = room.
Proof. intros Ho. unfold sink_room, o_append. cbn. rewrite Ho. reflexivity. Qed.

(** ** [RecordWriter::WriteRecord] *)

Section WriterFacts.
Context `{Platform}.

Lemma length_magic_bytes : length magic_bytes = sizeof_int.
Proof. apply length_encode_uint. Qed.

Lemma length_size_bytes len : length (size_bytes len) = sizeof_size_t.
Proof. apply length_encode_uint. Qed.

Lemma length_frame payload :
  length (frame payload) = (sizeof_int + sizeof_size_t + length payload)%nat.
Proof.
  unfold frame. rewrite !length_app, length_magic_bytes, length_size_bytes. lia.
Qed.

(** On a good stream whose sink has no limit the call appends the three
    fields and succeeds. *)
Lemma WriteRecord_unlimited f buffer len :
  good (o_state f) = true -> sink_room f = None ->
  RecordWriter.WriteRecord f buffer len
  = (o_append f (magic_bytes ++ size_bytes len ++ take (Z.to_nat len) buffer) None,
     true).
Proof.
  intros Hg Hr. unfold RecordWriter.WriteRecord.
  assert (Ho : o_is_open f = true).
  { unfold sink_room in Hr. destruct (o_is_open f); [reflexivity|discriminate]. }
  rewrite (ostream_write_unlimited f) by assumption.
  rewrite (ostream_write_unlimited (o_append f _ None));
    [| exact Hg | apply sink_room_o_append; exact Ho].
  rewrite (ostream_write_unlimited (o_append (o_append f _ None) _ None));
    [| exact Hg | apply sink_room_o_append; exact Ho].
  fold magic_bytes. fold (size_bytes len).
  rewrite (take_ge magic_bytes) by (rewrite length_magic_bytes; lia).
  rewrite (take_ge (size_bytes len)) by (rewrite length_size_bytes; lia).
  unfold o_append. cbn. rewrite (good_not_fail _ Hg), <- !app_assoc. reflexivity.
Qed.

(** On a good stream whose sink takes [r] more characters, the sink keeps
    the first [r] characters of the frame, and the call succeeds exactly
    when the whole frame fitted. *)
Lemma WriteRecord_room f buffer len r :
  good (o_state f) = true -> sink_room f = Some r ->
  o_written (fst (RecordWriter.WriteRecord f buffer len))
  = o_written f
    ++ take r (magic_bytes ++ size_bytes len ++ take (Z.to_nat len) buffer)
  /\ snd (RecordWriter.WriteRecord f buffer len)
     = (sizeof_int + sizeof_size_t + Z.to_nat len <=? r)%nat.
Proof.
  intros Hg Hr. unfold RecordWriter.WriteRecord. cbn [fst snd].
  fold magic_bytes. fold (size_bytes len).
  set (f1 := ostream_write f magic_bytes sizeof_int).
  set (f2 := ostream_write f1 (size_bytes len) sizeof_size_t).
  set (f3 := ostream_write f2 buffer (Z.to_nat len)).
  pose proof length_magic_bytes as Lm. pose proof (length_size_bytes len) as Ls.
  rewrite !take_app, Lm, Ls.
  destruct (ostream_write_room f magic_bytes sizeof_int r Hg Hr) as [W1 S1].
  fold f1 in W1, S1. rewrite (take_ge magic_bytes sizeof_int) in W1 by lia.
  destruct (Nat.leb_spec sizeof_int r) as [Hle1|Hlt1].
  - destruct S1 as [Hg1 Hr1].
    destruct (ostream_write_room f1 (size_bytes len) sizeof_size_t _ Hg1 Hr1)
      as [W2 S2].
    fold f2 in W2, S2. rewrite (take_ge (size_bytes len) sizeof_size_t) in W2 by lia.
    destruct (Nat.leb_spec sizeof_size_t (r - sizeof_int)) as [Hle2|Hlt2].
    + destruct S2 as [Hg2 Hr2].
      destruct (ostream_write_room f2 buffer (Z.to_nat len) _ Hg2 Hr2) as [W3 S3].
      fold f3 in W3, S3. rewrite W3, W2, W1, <- !app_assoc. split; [reflexivity|].
      destruct (Nat.leb_spec (Z.to_nat len) (r - sizeof_int - sizeof_size_t))
        as [Hle3|Hlt3].
      * destruct S3 as [Hg3 _]. rewrite (good_not_fail _ Hg3).
        symmetry. apply Nat.leb_le. lia.
      * rewrite S3. symmetry. apply Nat.leb_gt. lia.
    + destruct (ostream_write_failed f2 buffer (Z.to_nat len) S2) as [F3 W3].
      fold f3 in F3, W3. rewrite F3, W3, W2, W1, <- !app_assoc.
      replace (r - sizeof_int - sizeof_size_t)%nat with O by lia.
      rewrite take_0, app_nil_r. split; [reflexivity|].
      symmetry. apply Nat.leb_gt. lia.
  - destruct (ostream_write_failed f1 (size_bytes len) sizeof_size_t S1) as [F2 W2].
    fold f2 in F2, W2.
    destruct (ostream_write_failed f2 buffer (Z.to_nat len) F2) as [F3 W3].
    fold f3 in F3, W3. rewrite F3, W3, W2, W1.
    replace (r - sizeof_int)%nat with O by lia. rewrite !take_0, !app_nil_r.
    split; [reflexivity|]. symmetry. apply Nat.leb_gt. lia.
Qed.

(** On a stream that is not good the call writes nothing and fails. *)
Lemma WriteRecord_not_good f buffer len :
  good (o_state f) = false ->
  o_written (fst (RecordWriter.WriteRecord f buffer len)) = o_written f
  /\ snd (RecordWriter.WriteRecord f buffer len) = false.
Proof.
  intros Hg. unfold RecordWriter.WriteRecord. cbn [fst snd].
  set (f1 := ostream_write f _ sizeof_int).
  assert (F1 : fail (o_state f1) = true).
  { subst f1. rewrite ostream_write_fail. unfold write_fails. rewrite Hg. reflexivity. }
  assert (W1 : o_written f1 = o_written f).
  { subst f1. apply ostream_write_not_good, Hg. }
  destruct (ostream_write_failed f1 (encode_uint byte_order sizeof_size_t len)
              sizeof_size_t F1) as [F2 W2].
  destruct (ostream_write_failed _ buffer (Z.to_nat len) F2) as [F3 W3].
  rewrite F3, W3, W2, W1. split; reflexivity.
Qed.

End WriterFacts.

(** ** [istream::read] *)

Lemma i_at_i_at f a b : i_at (i_at f a) b = i_at f b.
Proof. reflexivity. Qed.

Lemma i_at_unread f : i_at f (i_unread f) = f.
Proof. destruct f; reflexivity. Qed.

(** A read that finds all [n] characters. *)
Lemma istream_read_full f n a b :
  good (i_state f) = true -> i_is_open f = true ->
  i_unread f = a ++ b -> length a = n ->
  istream_read f n = (i_at f b, a).
Proof.
  intros Hg Ho Hu Hn. unfold istream_read, source, i_at. rewrite Hg, Ho, Hu.
  rewrite take_app_length' by (symmetry; exact Hn).
  rewrite Hn, Nat.eqb_refl, drop_app_length' by (symmetry; exact Hn).
  reflexivity.
Qed.

(** A read that reaches the end of the source early: it extracts what is
    there and sets [eofbit | failbit]. *)
Lemma istream_read_short f n :
  good (i_state f) = true -> (length (source f) < n)%nat ->
  istream_read f n
  = (i_setstate eof_and_fail (i_at f (drop (length (source f)) (i_unread f))),
     source f).
Proof.
  intros Hg Hn. unfold istream_read. rewrite Hg.
  rewrite take_ge by lia.
  destruct (Nat.eqb_spec (length (source f)) n) as [E|_]; [lia|reflexivity].
Qed.

Lemma istream_read_not_good f n :
  good (i_state f) = false ->
  istream_read f n = (i_setstate only_failbit f, []).
Proof. intros Hg. unfold istream_read. rewrite Hg. reflexivity. Qed.

(** After a read, [fail()] is set in every case but the full read on a
    good stream. *)
Lemma istream_read_fail f n :
  fail (i_state (fst (istream_read f n)))
  = negb (good (i_state f)) || negb (length (take n (source f)) =? n)%nat.
Proof.
  unfold istream_read. destruct (good (i_state f)) eqn:Hg; cbn [negb orb].
  - destruct (length (take n (source f)) =? n)%nat; cbn.
    + apply good_not_fail, Hg.
    + rewrite fail_ios_or. apply orb_true_r.
  - cbn. rewrite fail_ios_or. apply orb_true_r.
Qed.

Lemma istream_read_ok f n :
  fail (i_state (fst (istream_read f n))) = false ->
  good (i_state f) = true
  /\ length (snd (istream_read f n)) = n
  /\ istream_read f n = (i_at f (drop n (i_unread f)), take n (source f)).
Proof.
  rewrite istream_read_fail. intros Hf.
  apply orb_false_elim in Hf as [Hg Hn].
  apply negb_false_iff in Hg. apply negb_false_iff, Nat.eqb_eq in Hn.
  unfold istream_read. rewrite Hg, Hn, Nat.eqb_refl. cbn [snd].
  split; [reflexivity|]. split; [exact Hn | reflexivity].
Qed.

(** In every case a read consumes a prefix of the unread characters, at
    most [n] of them, and what it extracts is that prefix. *)
Lemma istream_read_consumes f n :
  exists k, (k <= n)%nat
    /\ i_unread (fst (istream_read f n)) = drop k (i_unread f).
Proof.
  unfold istream_read. destruct (good (i_state f)).
  - exists (length (take n (source f))). split.
    + rewrite length_take. lia.
    + destruct (_ =? n)%nat; reflexivity.
  - exists O. split; [lia | reflexivity].
Qed.

(** ** The magic number *)

Section MagicFacts.
Context `{Platform}.

Lemma kMagicNumber_value : RecordWriter.kMagicNumber = 1054286602.
Proof. reflexivity. Qed.

Lemma decode_sint_magic_bytes :
  decode_sint byte_order magic_bytes = RecordWriter.kMagicNumber.
Proof.
  unfold decode_sint, magic_bytes.
  rewrite length_encode_uint, decode_encode_uint.
  reflexivity.
Qed.

(** Four characters read as an [int] compare equal to the magic number
    only when they are its object representation. *)
Lemma decode_sint_is_magic bs :
  length bs = sizeof_int ->
  decode_sint byte_order bs = RecordWriter.kMagicNumber ->
  bs = magic_bytes.
Proof.
  intros Hl Hd. unfold magic_bytes.
  rewrite <- (encode_decode_uint byte_order bs), Hl. f_equal.
  unfold decode_sint, to_signed in Hd. rewrite Hl in Hd.
  pose proof (decode_uint_range byte_order bs) as Hr. rewrite Hl in Hr.
  change (2 ^ (8 * Z.of_nat sizeof_int - 1)) with 2147483648 in Hd.
  change (2 ^ (8 * Z.of_nat sizeof_int)) with 4294967296 in Hd, Hr.
  rewrite kMagicNumber_value in *.
  destruct (Z.ltb_spec (decode_uint byte_order bs) 2147483648); lia.
Qed.

End MagicFacts.

(** ** The heap *)

Section HeapFacts.
Context `{Platform}.

Lemma length_uninitialized n : length (uninitialized n) = n.
Proof. unfold uninitialized. rewrite length_fmap. apply length_seq. Qed.

Lemma fresh_block_unused (h : heap) : h !! fresh (dom h) = None.
Proof. apply not_elem_of_dom, is_fresh. Qed.

(** Filling a new block completely leaves exactly the characters read. *)
Lemma fill_new_array (h : heap) (got : list byte) :
  alter (stored got) (snd (new_array h (length got))) (fst (new_array h (length got)))
  = <[fresh (dom h) := got]> h.
Proof.
  unfold new_array. cbn [fst snd]. rewrite alter_insert_eq.
  rewrite stored_full by (rewrite length_uninitialized; lia). reflexivity.
Qed.

(** Deleting a block that was just allocated restores the heap. *)
Lemma delete_new_array (h : heap) n g :
  delete_array (alter g (snd (new_array h n)) (fst (new_array h n)))
               (snd (new_array h n)) = h.
Proof.
  unfold new_array, delete_array. cbn [fst snd].
  rewrite alter_insert_eq, delete_insert_eq.
  apply delete_id, fresh_block_unused.
Qed.

End HeapFacts.

(** ** [RecordReader::ReadRecord] and [ReadRecordSized] *)

Section ReaderFacts.
Context `{Platform}.

(** Both readers start with the same check of the magic number; this is
    what it does on a stream positioned at a frame. *)
Lemma read_magic_at_frame f rest :
  good (i_state f) = true -> i_is_open f = true ->
  i_unread f = magic_bytes ++ rest ->
  istream_read f sizeof_int = (i_at f rest, magic_bytes).
Proof.
  intros Hg Ho Hu. apply istream_read_full; try assumption.
  apply length_magic_bytes.
Qed.

Lemma stored_magic_bytes zero :
  length zero = sizeof_int -> stored magic_bytes zero = magic_bytes.
Proof.
  intros Hl. apply stored_full. rewrite length_magic_bytes. lia.
Qed.

Lemma stored_size_bytes len old :
  length old = sizeof_size_t -> stored (size_bytes len) old = size_bytes len.
Proof.
  intros Hl. apply stored_full. rewrite length_size_bytes. lia.
Qed.

Lemma decode_size_bytes len :
  0 <= len < size_t_modulus -> decode_uint byte_order (size_bytes len) = len.
Proof. intros Hr. apply decode_encode_uint_small, Hr. Qed.

(** On a stream positioned at a whole frame, the raw [ReadRecord] hands
    the payload over in a new block and stops right behind the frame. *)
Lemma ReadRecord_frame f h len payload rest :
  good (i_state f) = true -> i_is_open f = true ->
  i_unread f = frame payload ++ rest ->
  Z.of_nat (length payload) < size_t_modulus ->
  RecordReader.ReadRecord f h len
  = RecordReader.RawResult true (i_at f rest) (<[fresh (dom h) := payload]> h)
      (Some (fresh (dom h))) (Z.of_nat (length payload)).
Proof.
  intros Hg Ho Hu Hr. unfold RecordReader.ReadRecord.
  unfold frame in Hu. rewrite <- !app_assoc in Hu.
  rewrite (read_magic_at_frame f _ Hg Ho Hu).
  rewrite stored_magic_bytes by apply length_encode_uint.
  rewrite decode_sint_magic_bytes, Z.eqb_refl.
  cbn [i_state i_at]. rewrite (good_not_fail _ Hg). cbn [negb orb].
  rewrite (istream_read_full (i_at f _) sizeof_size_t
             (size_bytes (Z.of_nat (length payload))) (payload ++ rest))
    by (try apply length_size_bytes; try reflexivity; assumption).
  fold (size_bytes len).
  rewrite stored_size_bytes by apply length_size_bytes.
  rewrite decode_size_bytes by lia.
  cbn [i_state i_at]. rewrite (good_not_fail _ Hg), Nat2Z.id.
  destruct (new_array h (length payload)) as [h1 data] eqn:Hnew.
  rewrite ?i_at_i_at.
  rewrite (istream_read_full (i_at f _) (length payload) payload rest)
    by (try reflexivity; assumption).
  cbn [i_state i_at]. rewrite (good_not_fail _ Hg).
  pose proof (fill_new_array h payload) as Hfill. rewrite Hnew in Hfill.
  cbn [fst snd] in Hfill. rewrite Hfill.
  unfold new_array in Hnew. injection Hnew as _ <-. reflexivity.
Qed.

(** On a stream that has nothing left, the raw [ReadRecord] only sets the
    failure bits. *)
Lemma ReadRecord_exhausted f h len :
  good (i_state f) = true -> source f = [] ->
  RecordReader.ReadRecord f h len
  = RecordReader.RawResult false (i_setstate eof_and_fail f) h None len.
Proof.
  intros Hg Hs. unfold RecordReader.ReadRecord.
  rewrite istream_read_short;
    [| exact Hg | rewrite Hs; unfold sizeof_int; cbn; lia].
  rewrite Hs. cbn [length drop]. rewrite drop_0, i_at_unread.
  cbn [i_state i_setstate]. rewrite fail_ios_or.
  replace (fail eof_and_fail) with true by reflexivity.
  rewrite orb_true_r. reflexivity.
Qed.

(** The fixed-size reader on a stream positioned at a whole frame of the
    expected size. *)
Lemma ReadRecordSized_frame f buffer payload rest :
  good (i_state f) = true -> i_is_open f = true ->
  i_unread f = frame payload ++ rest ->
  Z.of_nat (length payload) < size_t_modulus ->
  length buffer = length payload ->
  RecordReader.ReadRecordSized f buffer (Z.of_nat (length payload))
  = RecordReader.SizedResult true (i_at f rest) payload.
Proof.
  intros Hg Ho Hu Hr Hb. unfold RecordReader.ReadRecordSized.
  unfold frame in Hu. rewrite <- !app_assoc in Hu.
  rewrite (read_magic_at_frame f _ Hg Ho Hu).
  rewrite stored_magic_bytes by apply length_encode_uint.
  rewrite decode_sint_magic_bytes, Z.eqb_refl.
  cbn [i_state i_at]. rewrite (good_not_fail _ Hg). cbn [negb orb].
  rewrite (istream_read_full (i_at f _) sizeof_size_t
             (size_bytes (Z.of_nat (length payload))) (payload ++ rest))
    by (try apply length_size_bytes; try reflexivity; assumption).
  rewrite stored_size_bytes by apply length_uninitialized.
  rewrite decode_size_bytes by lia.
  cbn [i_state i_at]. rewrite (good_not_fail _ Hg), Z.eqb_refl, Nat2Z.id.
  cbn [negb orb].
  rewrite ?i_at_i_at.
  rewrite (istream_read_full (i_at f _) (length payload) payload rest)
    by (try reflexivity; assumption).
  cbn [i_state i_at]. rewrite (good_not_fail _ Hg).
  rewrite stored_full by lia. reflexivity.
Qed.

(** The fixed-size reader on a frame of another size: the size check
    rejects it before any payload character is extracted. *)
Lemma ReadRecordSized_mismatch f buffer payload rest len :
  good (i_state f) = true -> i_is_open f = true ->
  i_unread f = frame payload ++ rest ->
  Z.of_nat (length payload) < size_t_modulus ->
  len <> Z.of_nat (length payload) ->
  RecordReader.ReadRecordSized f buffer len
  = RecordReader.SizedResult false (i_at f (payload ++ rest)) buffer.
Proof.
  intros Hg Ho Hu Hr Hne. unfold RecordReader.ReadRecordSized.
  unfold frame in Hu. rewrite <- !app_assoc in Hu.
  rewrite (read_magic_at_frame f _ Hg Ho Hu).
  rewrite stored_magic_bytes by apply length_encode_uint.
  rewrite decode_sint_magic_bytes, Z.eqb_refl.
  cbn [i_state i_at]. rewrite (good_not_fail _ Hg). cbn [negb orb].
  rewrite (istream_read_full (i_at f _) sizeof_size_t
             (size_bytes (Z.of_nat (length payload))) (payload ++ rest))
    by (try apply length_size_bytes; try reflexivity; assumption).
  rewrite stored_size_bytes by apply length_uninitialized.
  rewrite decode_size_bytes by lia.
  cbn [i_state i_at]. rewrite (good_not_fail _ Hg).
  destruct (Z.eqb_spec (Z.of_nat (length payload)) len) as [E|_];
    [congruence | reflexivity].
Qed.

(** The raw [ReadRecord] ends in one of two ways: it fails, with a null
    [*buffer] and the heap as it found it, or it succeeds, with [*buffer]
    pointing to a new block of [*len] characters. *)
Lemma ReadRecord_cases f h len :
  let r := RecordReader.ReadRecord f h len in
  (RecordReader.raw_ok r = false
   /\ RecordReader.raw_buffer r = None
   /\ RecordReader.raw_heap r = h)
  \/ (RecordReader.raw_ok r = true
      /\ fail (i_state (RecordReader.raw_file r)) = false
      /\ exists payload,
           RecordReader.raw_buffer r = Some (fresh (dom h))
           /\ RecordReader.raw_heap r = <[fresh (dom h) := payload]> h
           /\ Z.of_nat (length payload) = RecordReader.raw_len r).
Proof.
  unfold RecordReader.ReadRecord.
  destruct (istream_read f sizeof_int) as [f1 g1].
  destruct (fail (i_state f1) || _); [left; repeat split|].
  destruct (istream_read f1 sizeof_size_t) as [f2 g2].
  destruct (fail (i_state f2)); [left; repeat split|].
  set (n := decode_uint byte_order _).
  assert (Hn : 0 <= n) by apply decode_uint_range.
  destruct (new_array h (Z.to_nat n)) as [h1 data] eqn:Hnew.
  destruct (istream_read f2 (Z.to_nat n)) as [f3 g3] eqn:Hread.
  destruct (fail (i_state f3)) eqn:Hfail; cbn.
  - left. split; [reflexivity|]. split; [reflexivity|].
    pose proof (delete_new_array h (Z.to_nat n) (stored g3)) as Hdel.
    rewrite Hnew in Hdel. exact Hdel.
  - right. split; [reflexivity|]. split; [exact Hfail|]. exists g3.
    assert (Hlen : length g3 = Z.to_nat n).
    { pose proof (istream_read_ok f2 (Z.to_nat n)) as Hok.
      rewrite Hread in Hok. apply Hok. exact Hfail. }
    pose proof (fill_new_array h g3) as Hfill.
    rewrite Hlen, Hnew in Hfill. cbn [fst snd] in Hfill. rewrite Hfill.
    unfold new_array in Hnew. injection Hnew as _ <-.
    repeat split. lia.
Qed.

(** The string [ReadRecord] follows the raw one called with a zeroed
    [size_t]: on failure the string and the heap are untouched, on success
    the string receives the characters behind [*buffer] and the block is
    deleted. *)
Lemma ReadRecord_string_cases f h (data : list byte) :
  let r0 := RecordReader.ReadRecord f h 0 in
  let s := RecordReader.ReadRecord_string f h data in
  RecordReader.str_ok s = RecordReader.raw_ok r0
  /\ (RecordReader.str_ok s = false ->
        RecordReader.str_data s = data /\ RecordReader.str_heap s = h)
  /\ (RecordReader.str_ok s = true ->
        RecordReader.str_heap s = h
        /\ Some (RecordReader.str_data s)
           = (RecordReader.raw_buffer r0 ≫= fun p => RecordReader.raw_heap r0 !! p)).
Proof.
  intros r0 s. subst s. unfold RecordReader.ReadRecord_string. cbn zeta.
  fold r0.
  destruct (ReadRecord_cases f h 0)
    as [(Hok & Hbuf & Hheap)|(Hok & _ & payload & Hb & Hh & Hl)].
  - fold r0 in Hok, Hbuf, Hheap. rewrite Hok.
    cbn [negb RecordReader.str_ok RecordReader.str_data RecordReader.str_heap].
    split; [reflexivity|]. split; [|discriminate].
    intros _. split; [reflexivity | exact Hheap].
  - fold r0 in Hok, Hb, Hh, Hl. rewrite Hok.
    cbn [negb RecordReader.str_ok RecordReader.str_data RecordReader.str_heap].
    split; [reflexivity|]. split; [discriminate|].
    intros _. rewrite Hb, Hh. cbn [load mbind option_bind].
    rewrite lookup_insert_eq. unfold delete_array. rewrite delete_insert_eq.
    rewrite (delete_id h) by apply fresh_block_unused.
    cbn [default]. rewrite <- Hl, Nat2Z.id. rewrite take_ge by reflexivity.
    split; reflexivity.
Qed.

End ReaderFacts.

(** ** Sequences of records *)

Section SequenceFacts.
Context `{Platform}.

Lemma WriteRecord_string_unlimited f data :
  good (o_state f) = true -> sink_room f = None ->
  RecordWriter.WriteRecord_string f data = (o_append f (frame data) None, true).
Proof.
  intros Hg Hr. unfold RecordWriter.WriteRecord_string.
  rewrite WriteRecord_unlimited by assumption.
  rewrite Nat2Z.id. rewrite take_ge by reflexivity. reflexivity.
Qed.

(** Writing to a good stream without a size limit appends the frames of
    the records one after the other, and every call succeeds. *)
Lemma WriteRecords_unlimited records : forall f,
  good (o_state f) = true -> sink_room f = None ->
  o_written (fst (RecordWriter.WriteRecords f records))
  = o_written f ++ concat (frame <$> records)
  /\ snd (RecordWriter.WriteRecords f records) = replicate (length records) true.
Proof.
  induction records as [|data rest IH]; intros f Hg Hr.
  - cbn. rewrite app_nil_r. split; reflexivity.
  - cbn [RecordWriter.WriteRecords].
    rewrite WriteRecord_string_unlimited by assumption.
    assert (Ho : o_is_open f = true).
    { unfold sink_room in Hr. destruct (o_is_open f); [reflexivity|discriminate]. }
    destruct (IH (o_append f (frame data) None) Hg
                (sink_room_o_append f _ None Ho)) as [Hw Hs].
    destruct (RecordWriter.WriteRecords (o_append f (frame data) None) rest)
      as [f' oks].
    cbn [fst snd] in *. rewrite Hw, Hs. cbn. rewrite <- app_assoc.
    split; reflexivity.
Qed.

Lemma ReadRecords_S k f h :
  RecordReader.ReadRecords (S k) f h
  = (if RecordReader.raw_ok (RecordReader.ReadRecord f h 0)
     then Some (load (RecordReader.raw_heap (RecordReader.ReadRecord f h 0))
                     (RecordReader.raw_buffer (RecordReader.ReadRecord f h 0))
                     (Z.to_nat (RecordReader.raw_len (RecordReader.ReadRecord f h 0))))
     else None)
    :: RecordReader.ReadRecords k
         (RecordReader.raw_file (RecordReader.ReadRecord f h 0))
         (RecordReader.raw_heap (RecordReader.ReadRecord f h 0)).
Proof. reflexivity. Qed.

(** Reading a stream made of the frames of [records]: one record per call,
    in order, and then a failure. *)
Lemma ReadRecords_frames records : forall f h,
  good (i_state f) = true -> i_is_open f = true ->
  i_unread f = concat (frame <$> records) ->
  Forall (fun p => Z.of_nat (length p) < size_t_modulus) records ->
  RecordReader.ReadRecords (S (length records)) f h = (Some <$> records) ++ [None].
Proof.
  induction records as [|data rest IH]; intros f h Hg Ho Hu Hall.
  - cbn [length]. rewrite ReadRecords_S.
    rewrite ReadRecord_exhausted; [reflexivity | exact Hg |].
    unfold source. rewrite Ho. exact Hu.
  - apply Forall_cons in Hall as [Hdata Hrest].
    cbn [length]. rewrite ReadRecords_S.
    rewrite (ReadRecord_frame f h 0 data (concat (frame <$> rest)))
      by assumption.
    cbn [RecordReader.raw_ok RecordReader.raw_heap RecordReader.raw_buffer
         RecordReader.raw_len RecordReader.raw_file].
    rewrite IH by (try reflexivity; assumption).
    unfold load. rewrite lookup_insert_eq, Nat2Z.id. cbn [default].
    rewrite take_ge by reflexivity. reflexivity.
Qed.

End SequenceFacts.

(** ** The format on two hosts *)

Example frame_ABC_lp64_le :
  @frame lp64_le [Byte.x41; Byte.x42; Byte.x43]
  = [Byte.x0a; Byte.x23; Byte.xd7; Byte.x3e;
     Byte.x03; Byte.x00; Byte.x00; Byte.x00; Byte.x00; Byte.x00; Byte.x00; Byte.x00;
     Byte.x41; Byte.x42; Byte.x43].
Proof. reflexivity. Qed.

Example frame_ABC_ilp32_be :
  @frame ilp32_be [Byte.x41; Byte.x42; Byte.x43]
  = [Byte.x3e; Byte.xd7; Byte.x23; Byte.x0a;
     Byte.x00; Byte.x00; Byte.x00; Byte.x03;
     Byte.x41; Byte.x42; Byte.x43].
Proof. reflexivity. Qed.

(** "ABC", "", "DEFG" written and read back on the big-endian host; the
    fourth read finds no frame. *)
Example ABC_empty_DEFG_ilp32_be :
  @RecordReader.ReadRecords ilp32_be 4
    (open_ifstream
       (o_written
          (fst (@RecordWriter.WriteRecords ilp32_be fresh_ofstream
                  [[Byte.x41; Byte.x42; Byte.x43]; [];
                   [Byte.x44; Byte.x45; Byte.x46; Byte.x47]])))) ∅
  = [Some [Byte.x41; Byte.x42; Byte.x43]; Some [];
     Some [Byte.x44; Byte.x45; Byte.x46; Byte.x47]; None].
Proof. vm_compute. reflexivity. Qed.

(** A sink that gives out after six characters keeps the magic number and
    two characters of the length field. *)
Example WriteRecord_sink_full :
  @RecordWriter.WriteRecord lp64_le (Ofstream goodbit true [] (Some 6%nat) true)
    [Byte.x41; Byte.x42; Byte.x43] 3
  = (Ofstream (IoState true false true) true
       [Byte.x0a; Byte.x23; Byte.xd7; Byte.x3e; Byte.x03; Byte.x00]
       (Some 0%nat) true,
     false).
Proof. reflexivity. Qed.

(** The fixed-size reader leaves what it extracted in the caller's storage
    when the payload is cut short. *)
Example ReadRecordSized_short_payload :
  @RecordReader.ReadRecordSized lp64_le
    (open_ifstream (@magic_bytes lp64_le ++ @size_bytes lp64_le 4
                    ++ [Byte.x41; Byte.x42]))
    [Byte.x00; Byte.x00; Byte.x00; Byte.x00] 4
  = RecordReader.SizedResult false (Ifstream eof_and_fail true [] true)
      [Byte.x41; Byte.x42; Byte.x00; Byte.x00].
Proof. reflexivity. Qed.

(** ** The writer's contract *)

(** C3.  A successful [WriteRecord(buffer, len)] appends to the stream, in
    this order and with nothing in between: the object representation of
    the 32-bit magic number [0x3ed7230a], the object representation of
    [len] as a [size_t], and the [len] payload characters.  The three
    fields together are the documented frame. *)
Theorem WriteRecord_appends_frame `{Platform} f buffer len :
  0 <= len < size_t_modulus ->
  (Z.to_nat len <= length buffer)%nat ->
  snd (RecordWriter.WriteRecord f buffer len) = true ->
  let payload := take (Z.to_nat len) buffer in
  o_written (fst (RecordWriter.WriteRecord f buffer len))
  = o_written f ++ magic_bytes ++ size_bytes len ++ payload
  /\ magic_bytes = encode_uint byte_order 4 0x3ed7230a
  /\ length magic_bytes = 4%nat
  /\ decode_sint byte_order magic_bytes = 0x3ed7230a
  /\ length (size_bytes len) = sizeof_size_t
  /\ decode_uint byte_order (size_bytes len) = len
  /\ Z.of_nat (length payload) = len
  /\ magic_bytes ++ size_bytes len ++ payload = frame payload.
Proof.
  intros Hlen Hbuf Hok payload.
  assert (Hpl : Z.of_nat (length payload) = len).
  { subst payload. rewrite length_take_le by exact Hbuf. lia. }
  split; [|repeat split].
  - destruct (good (o_state f)) eqn:Hg.
    + destruct (sink_room f) as [r|] eqn:Hr.
      * destruct (WriteRecord_room f buffer len r Hg Hr) as [Hw Hs].
        rewrite Hs in Hok. apply Nat.leb_le in Hok.
        rewrite Hw, take_ge; [reflexivity|].
        rewrite !length_app, length_magic_bytes, length_size_bytes, length_take.
        lia.
      * rewrite WriteRecord_unlimited by assumption. reflexivity.
    + destruct (WriteRecord_not_good f buffer len Hg) as [_ Hs]. congruence.
  - apply length_magic_bytes.
  - apply decode_sint_magic_bytes.
  - apply length_size_bytes.
  - apply decode_size_bytes, Hlen.
  - exact Hpl.
  - unfold frame. rewrite Hpl. reflexivity.
Qed.

Lemma WriteRecord_appends_frame_witness :
  o_written
    (fst (@RecordWriter.WriteRecord lp64_le
            (Ofstream goodbit true [Byte.x2a] (Some 20%nat) true)
            [Byte.x41; Byte.x42; Byte.x43; Byte.x44] 3))
  = [Byte.x2a] ++ [Byte.x0a; Byte.x23; Byte.xd7; Byte.x3e]
    ++ [Byte.x03; Byte.x00; Byte.x00; Byte.x00; Byte.x00; Byte.x00; Byte.x00; Byte.x00]
    ++ [Byte.x41; Byte.x42; Byte.x43].
Proof.
  apply (proj1 (@WriteRecord_appends_frame lp64_le
                  (Ofstream goodbit true [Byte.x2a] (Some 20%nat) true)
                  [Byte.x41; Byte.x42; Byte.x43; Byte.x44] 3
                  ltac:(split; [discriminate | reflexivity])
                  ltac:(cbn; lia)
                  ltac:(reflexivity))).
Defined.

(** C7.  [WriteRecord] returns failure exactly when one of its three
    writes (magic, length, payload) failed, where a write fails when the
    stream is not good on entry or the sink takes fewer characters than
    asked.  Nothing is rolled back: what was in the sink stays, followed
    by a prefix of the frame; when the sink gives out after [room]
    characters, the first [room] characters of the frame stay behind as a
    truncated trailing frame. *)
Theorem WriteRecord_fails_iff_a_write_fails `{Platform} f buffer len :
  let f1 := ostream_write f magic_bytes sizeof_int in
  let f2 := ostream_write f1 (size_bytes len) sizeof_size_t in
  let r := RecordWriter.WriteRecord f buffer len in
  let whole := magic_bytes ++ size_bytes len ++ take (Z.to_nat len) buffer in
  (snd r = false <->
     write_fails f sizeof_int = true
     \/ write_fails f1 sizeof_size_t = true
     \/ write_fails f2 (Z.to_nat len) = true)
  /\ (exists kept, o_written (fst r) = o_written f ++ kept
                   /\ kept `prefix_of` whole)
  /\ (forall room,
        good (o_state f) = true -> sink_room f = Some room ->
        (room < length whole)%nat ->
        snd r = false /\ o_written (fst r) = o_written f ++ take room whole).
Proof.
  intros f1 f2 r whole. split; [|split].
  - subst r. unfold RecordWriter.WriteRecord. cbn [snd].
    fold magic_bytes. fold (size_bytes len). fold f1. fold f2.
    rewrite negb_false_iff, ostream_write_fail. split.
    + intros Hf. right. right. exact Hf.
    + intros [H1|[H2|H3]]; [| |exact H3].
      * rewrite <- (ostream_write_fail f magic_bytes) in H1. fold f1 in H1.
        destruct (ostream_write_failed f1 (size_bytes len) sizeof_size_t H1)
          as [F2 _].
        fold f2 in F2. unfold write_fails.
        rewrite (fail_not_good _ F2). reflexivity.
      * rewrite <- (ostream_write_fail f1 (size_bytes len)) in H2. fold f2 in H2.
        unfold write_fails. rewrite (fail_not_good _ H2). reflexivity.
  - destruct (good (o_state f)) eqn:Hg.
    + destruct (sink_room f) as [room|] eqn:Hr.
      * exists (take room whole). split; [|apply prefix_take].
        apply (WriteRecord_room f buffer len room Hg Hr).
      * exists whole. split; [|reflexivity].
        subst r. rewrite WriteRecord_unlimited by assumption. reflexivity.
    + exists []. split; [|apply prefix_nil].
      rewrite app_nil_r. apply (WriteRecord_not_good f buffer len Hg).
  - intros room Hg Hr Hlt.
    destruct (WriteRecord_room f buffer len room Hg Hr) as [Hw Hs].
    split; [|exact Hw]. subst r. rewrite Hs. apply Nat.leb_gt.
    subst whole.
    rewrite !length_app, length_magic_bytes, length_size_bytes in Hlt.
    rewrite length_take in Hlt. lia.
Qed.

Lemma WriteRecord_fails_iff_a_write_fails_witness :
  snd (@RecordWriter.WriteRecord lp64_le (Ofstream goodbit true [] (Some 6%nat) true)
         [Byte.x41; Byte.x42; Byte.x43] 3) = false
  /\ o_written
       (fst (@RecordWriter.WriteRecord lp64_le
               (Ofstream goodbit true [] (Some 6%nat) true)
               [Byte.x41; Byte.x42; Byte.x43] 3))
     = [] ++ take 6 ([Byte.x0a; Byte.x23; Byte.xd7; Byte.x3e]
                     ++ [Byte.x03; Byte.x00; Byte.x00; Byte.x00;
                         Byte.x00; Byte.x00; Byte.x00; Byte.x00]
                     ++ [Byte.x41; Byte.x42; Byte.x43]).
Proof.
  apply (proj2 (proj2 (@WriteRecord_fails_iff_a_write_fails lp64_le
                         (Ofstream goodbit true [] (Some 6%nat) true)
                         [Byte.x41; Byte.x42; Byte.x43] 3))
           6%nat ltac:(reflexivity) ltac:(reflexivity) ltac:(cbn; lia)).
Defined.

(** ** Round trips *)

(** C1.  Writing the payloads [records] one [WriteRecord] call each to a
    fresh stream, and then calling [ReadRecord] on the resulting file,
    gives back the payloads one per call, unchanged and in the order
    written; the call after the last record fails.  Every payload length
    fits a [size_t]. *)
Theorem write_then_read_roundtrip `{Platform} (records : list (list byte)) (h : heap) :
  Forall (fun p => Z.of_nat (length p) < size_t_modulus) records ->
  let written := RecordWriter.WriteRecords fresh_ofstream records in
  snd written = replicate (length records) true
  /\ o_written (fst written) = concat (frame <$> records)
  /\ RecordReader.ReadRecords (S (length records))
       (open_ifstream (o_written (fst written))) h
     = (Some <$> records) ++ [None].
Proof.
  intros Hall written.
  destruct (WriteRecords_unlimited records fresh_ofstream eq_refl eq_refl)
    as [Hw Hs].
  fold written in Hw, Hs. cbn [o_written fresh_ofstream app] in Hw.
  split; [exact Hs|]. split; [exact Hw|].
  apply ReadRecords_frames; try reflexivity; [|exact Hall].
  cbn [i_unread open_ifstream]. exact Hw.
Qed.

Lemma write_then_read_roundtrip_witness :
  @RecordReader.ReadRecords lp64_le 4
    (open_ifstream
       (o_written
          (fst (@RecordWriter.WriteRecords lp64_le fresh_ofstream
                  [[Byte.x41; Byte.x42; Byte.x43]; [];
                   [Byte.x44; Byte.x45; Byte.x46; Byte.x47]])))) ∅
  = [Some [Byte.x41; Byte.x42; Byte.x43]; Some [];
     Some [Byte.x44; Byte.x45; Byte.x46; Byte.x47]; None].
Proof.
  apply (proj2 (proj2 (@write_then_read_roundtrip lp64_le
                         [[Byte.x41; Byte.x42; Byte.x43]; [];
                          [Byte.x44; Byte.x45; Byte.x46; Byte.x47]] ∅
                         ltac:(repeat constructor)))).
Defined.

(** C2.  A plain-data value of a fixed-size type, given by its [sizeof_T]
    characters [V], written with [Write<T>] to a fresh stream and read
    back with [Read<T>] into a destination of the same type: both calls
    succeed and the destination holds exactly the characters of [V]. *)
Theorem Write_then_Read_roundtrip `{Platform} (sizeof_T : nat) (V dest : list byte) :
  length V = sizeof_T -> length dest = sizeof_T ->
  Z.of_nat sizeof_T < size_t_modulus ->
  let written := RecordWriter.Write sizeof_T fresh_ofstream V in
  let read := RecordReader.Read sizeof_T
                (open_ifstream (o_written (fst written))) dest in
  snd written = true
  /\ RecordReader.sized_ok read = true
  /\ RecordReader.sized_buffer read = V.
Proof.
  intros HV Hdest Hsize written read. subst sizeof_T.
  assert (Hw : written = (o_append fresh_ofstream (frame V) None, true)).
  { subst written. unfold RecordWriter.Write.
    rewrite WriteRecord_unlimited by reflexivity.
    rewrite Nat2Z.id. rewrite take_ge by reflexivity. reflexivity. }
  subst read. rewrite Hw. cbn [fst snd o_written o_append fresh_ofstream app].
  unfold RecordReader.Read.
  rewrite (ReadRecordSized_frame _ dest V []);
    try reflexivity; try assumption.
  - repeat split.
  - cbn [i_unread open_ifstream]. rewrite app_nil_r. reflexivity.
Qed.

Lemma Write_then_Read_roundtrip_witness :
  RecordReader.sized_buffer
    (@RecordReader.Read lp64_le sizeof_Thumbnail
       (open_ifstream
          (o_written
             (fst (@RecordWriter.Write lp64_le sizeof_Thumbnail fresh_ofstream
                     (Thumbnail_bytes
                        {| filename := [Byte.x61; Byte.x2e; Byte.x6a; Byte.x70; Byte.x67];
                           pixels := replicate 900 Byte.x7f |})))))
       (Thumbnail_bytes {| filename := []; pixels := [] |}))
  = Thumbnail_bytes
      {| filename := [Byte.x61; Byte.x2e; Byte.x6a; Byte.x70; Byte.x67];
         pixels := replicate 900 Byte.x7f |}.
Proof.
  apply (proj2 (proj2 (@Write_then_Read_roundtrip lp64_le sizeof_Thumbnail
                         (Thumbnail_bytes
                            {| filename := [Byte.x61; Byte.x2e; Byte.x6a; Byte.x70; Byte.x67];
                               pixels := replicate 900 Byte.x7f |})
                         (Thumbnail_bytes {| filename := []; pixels := [] |})
                         ltac:(vm_compute; reflexivity)
                         ltac:(vm_compute; reflexivity)
                         ltac:(reflexivity)))).
Defined.

(** ** Rejections *)

(** C4.  A frame with payload length L, read through the fixed-size path
    with an expected size other than L, is rejected although its magic
    number is the right one; the caller's storage is left as it was and
    the payload stays unread in the stream. *)
Theorem ReadRecordSized_rejects_other_size `{Platform}
    f payload rest (buffer : list byte) (sizeof_T : nat) :
  good (i_state f) = true -> i_is_open f = true ->
  i_unread f = frame payload ++ rest ->
  Z.of_nat (length payload) < size_t_modulus ->
  sizeof_T <> length payload ->
  RecordReader.Read sizeof_T f buffer
  = RecordReader.SizedResult false (i_at f (payload ++ rest)) buffer
  /\ decode_sint byte_order (take sizeof_int (i_unread f))
     = RecordWriter.kMagicNumber
  /\ frame payload
     = o_written (fst (RecordWriter.WriteRecord_string fresh_ofstream payload)).
Proof.
  intros Hg Ho Hu Hsize Hne. split; [|split].
  - unfold RecordReader.Read.
    apply ReadRecordSized_mismatch; try assumption. lia.
  - rewrite Hu. unfold frame. rewrite <- app_assoc.
    rewrite take_app_length' by (symmetry; apply length_magic_bytes).
    apply decode_sint_magic_bytes.
  - rewrite WriteRecord_string_unlimited by reflexivity. reflexivity.
Qed.

Lemma ReadRecordSized_rejects_other_size_witness :
  @RecordReader.Read lp64_le 4
    (open_ifstream (@frame lp64_le [Byte.x41; Byte.x42; Byte.x43] ++ [Byte.x99]))
    [Byte.x00; Byte.x00; Byte.x00; Byte.x00]
  = RecordReader.SizedResult false
      (open_ifstream ([Byte.x41; Byte.x42; Byte.x43] ++ [Byte.x99]))
      [Byte.x00; Byte.x00; Byte.x00; Byte.x00].
Proof.
  apply (proj1 (@ReadRecordSized_rejects_other_size lp64_le
                  (open_ifstream
                     (@frame lp64_le [Byte.x41; Byte.x42; Byte.x43] ++ [Byte.x99]))
                  [Byte.x41; Byte.x42; Byte.x43] [Byte.x99]
                  [Byte.x00; Byte.x00; Byte.x00; Byte.x00] 4
                  ltac:(reflexivity) ltac:(reflexivity) ltac:(reflexivity)
                  ltac:(reflexivity) ltac:(cbn; lia))).
Defined.

(** C5.  When the stream does not begin with the four characters of the
    magic number, [ReadRecord] fails: it returns false with a null
    [*buffer], allocates nothing, leaves [*len] alone, and takes at most
    the four characters of the magic check from the stream, exactly four
    (or all there are) when the stream was good. *)
Theorem ReadRecord_rejects_bad_magic `{Platform} f h len :
  take sizeof_int (source f) <> magic_bytes ->
  let r := RecordReader.ReadRecord f h len in
  RecordReader.raw_ok r = false
  /\ RecordReader.raw_buffer r = None
  /\ RecordReader.raw_heap r = h
  /\ RecordReader.raw_len r = len
  /\ (exists k, (k <= sizeof_int)%nat
        /\ i_unread (RecordReader.raw_file r) = drop k (i_unread f))
  /\ (good (i_state f) = true -> i_is_open f = true ->
      i_unread (RecordReader.raw_file r) = drop sizeof_int (i_unread f)).
Proof.
  intros Hbad. unfold RecordReader.ReadRecord.
  pose proof (istream_read_consumes f sizeof_int) as Hcons.
  pose proof (istream_read_ok f sizeof_int) as Hok.
  pose proof (istream_read_fail f sizeof_int) as Hfl.
  destruct (istream_read f sizeof_int) as [f1 g1] eqn:Hread.
  cbn [fst snd] in Hcons, Hok, Hfl.
  assert (Hcond : fail (i_state f1)
                  || negb (decode_sint byte_order
                             (stored g1 (encode_uint byte_order sizeof_int 0))
                           =? RecordWriter.kMagicNumber) = true).
  { destruct (fail (i_state f1)) eqn:Hf1; [reflexivity|].
    destruct (Hok eq_refl) as (_ & Hlen & Heq).
    injection Heq as _ Hg1.
    rewrite stored_full by (rewrite length_encode_uint; lia).
    cbn [orb]. apply negb_true_iff, Z.eqb_neq. intros Hmagic.
    apply Hbad. rewrite <- Hg1. apply decode_sint_is_magic; assumption. }
  rewrite Hcond. cbn.
  repeat split; [exact Hcons|].
  intros Hg Ho. unfold istream_read, source in Hread. rewrite Hg, Ho in Hread.
  assert (Hdrop : drop (length (take sizeof_int (i_unread f))) (i_unread f)
                  = drop sizeof_int (i_unread f)).
  { rewrite length_take.
    destruct (Nat.le_ge_cases sizeof_int (length (i_unread f))).
    - rewrite Nat.min_l by assumption. reflexivity.
    - rewrite Nat.min_r by assumption.
      rewrite drop_all. symmetry. apply drop_ge. assumption. }
  destruct (_ =? sizeof_int)%nat; injection Hread as <- _; cbn; exact Hdrop.
Qed.

Lemma ReadRecord_rejects_bad_magic_witness :
  RecordReader.raw_ok
    (@RecordReader.ReadRecord lp64_le
       (open_ifstream [Byte.x0a; Byte.x23; Byte.xd7; Byte.x3f; Byte.x01; Byte.x02])
       ∅ 7) = false.
Proof.
  apply (proj1 (@ReadRecord_rejects_bad_magic lp64_le
                  (open_ifstream
                     [Byte.x0a; Byte.x23; Byte.xd7; Byte.x3f; Byte.x01; Byte.x02])
                  ∅ 7 ltac:(vm_compute; discriminate))).
Defined.

(** The truncated payload once the block has been allocated: the short
    read makes [ReadRecord] fail with a null [*buffer], and the block is
    deleted again, so the heap is what it was before the call.  The
    stream is left exhausted with [eofbit] and [failbit] set. *)
Lemma ReadRecord_truncated_payload `{Platform} f h len lenfield rest :
  good (i_state f) = true -> i_is_open f = true ->
  i_unread f = magic_bytes ++ lenfield ++ rest ->
  length lenfield = sizeof_size_t ->
  Z.of_nat (length rest) < decode_uint byte_order lenfield ->
  let r := RecordReader.ReadRecord f h len in
  RecordReader.raw_ok r = false
  /\ RecordReader.raw_buffer r = None
  /\ RecordReader.raw_heap r = h
  /\ RecordReader.raw_heap r
       !! snd (new_array h (Z.to_nat (decode_uint byte_order lenfield))) = None
  /\ RecordReader.raw_len r = decode_uint byte_order lenfield
  /\ RecordReader.raw_file r = i_setstate eof_and_fail (i_at f []).
Proof.
  intros Hg Ho Hu Hl Hshort. unfold RecordReader.ReadRecord.
  rewrite (read_magic_at_frame f _ Hg Ho Hu).
  rewrite stored_magic_bytes by apply length_encode_uint.
  rewrite decode_sint_magic_bytes, Z.eqb_refl.
  cbn [i_state i_at]. rewrite (good_not_fail _ Hg). cbn [negb orb].
  rewrite (istream_read_full (i_at f _) sizeof_size_t lenfield rest)
    by (try reflexivity; assumption).
  rewrite stored_full by (rewrite length_encode_uint; lia).
  cbn [i_state i_at]. rewrite (good_not_fail _ Hg).
  set (n := Z.to_nat (decode_uint byte_order lenfield)).
  pose proof (delete_new_array h n) as Hdel.
  destruct (new_array h n) as [h1 data] eqn:Hnew. cbn [fst snd] in Hdel.
  rewrite ?i_at_i_at.
  rewrite istream_read_short;
    [| exact Hg | unfold source; cbn [i_is_open i_unread i_at]; rewrite Ho; lia].
  unfold source. cbn [i_is_open i_unread i_at i_state i_setstate].
  rewrite Ho, fail_ios_or.
  replace (fail eof_and_fail) with true by reflexivity. rewrite orb_true_r.
  cbn [RecordReader.raw_ok RecordReader.raw_buffer RecordReader.raw_heap
       RecordReader.raw_len RecordReader.raw_file].
  rewrite Hdel, drop_all.
  repeat split.
  unfold new_array in Hnew. injection Hnew as _ <-. apply fresh_block_unused.
Qed.

(** With the allocation that can fail, [ReadRecord] on a stream that
    holds the magic number and a whole length field either throws, when
    the declared length is more than can be allocated, or goes on as with
    the allocation that succeeds. *)
Lemma BoundedHeap_ReadRecord_after_header `{Platform} available f h len lenfield rest :
  good (i_state f) = true -> i_is_open f = true ->
  i_unread f = magic_bytes ++ lenfield ++ rest ->
  length lenfield = sizeof_size_t ->
  BoundedHeap.ReadRecord available f h len
  = if available <? decode_uint byte_order lenfield
    then BoundedHeap.Threw_bad_alloc (i_at f rest) h None
           (decode_uint byte_order lenfield)
    else BoundedHeap.Returned (RecordReader.ReadRecord f h len).
Proof.
  intros Hg Ho Hu Hl.
  unfold BoundedHeap.ReadRecord, RecordReader.ReadRecord.
  rewrite (read_magic_at_frame f _ Hg Ho Hu).
  rewrite stored_magic_bytes by apply length_encode_uint.
  rewrite decode_sint_magic_bytes, Z.eqb_refl.
  cbn [i_state i_at]. rewrite (good_not_fail _ Hg). cbn [negb orb].
  rewrite (istream_read_full (i_at f _) sizeof_size_t lenfield rest)
    by (try reflexivity; assumption).
  rewrite stored_full by (rewrite length_encode_uint; lia).
  cbn [i_state i_at]. rewrite (good_not_fail _ Hg). rewrite ?i_at_i_at.
  destruct (available <? decode_uint byte_order lenfield); [reflexivity|].
  destruct (new_array h (Z.to_nat (decode_uint byte_order lenfield)))
    as [h1 data].
  destruct (istream_read (i_at f rest)
              (Z.to_nat (decode_uint byte_order lenfield))) as [f3 g3].
  destruct (fail (i_state f3)); reflexivity.
Qed.

(** C6, as stated, fails when the length field declares more than can be
    allocated.  On a 64-bit host, with as much memory as an array can
    have at all ([PTRDIFF_MAX]), a stream of the magic number, a length
    field of [2^64 - 1] and three payload characters makes
    [new char[*len]] throw: [ReadRecord] does not return failure, it does
    not return. *)
Lemma ReadRecord_huge_length_counterexample :
  ~ exists r,
      @BoundedHeap.ReadRecord lp64_le (2 ^ 63 - 1)
        (open_ifstream
           (@magic_bytes lp64_le
            ++ [Byte.xff; Byte.xff; Byte.xff; Byte.xff;
                Byte.xff; Byte.xff; Byte.xff; Byte.xff]
            ++ [Byte.x41; Byte.x42; Byte.x43]))
        ∅ 0
      = BoundedHeap.Returned r
      /\ RecordReader.raw_ok r = false.
Proof.
  intros (r & Hcall & _). vm_compute in Hcall. discriminate Hcall.
Qed.

(** C6, amended.  A stream that holds the magic number and a length
    field, but fewer payload characters than the length field declares.
    When the declared length can be allocated, [ReadRecord] returns
    failure with a null [*buffer], and the block it allocated for the
    payload is deleted again, so the heap is what it was before the call;
    the stream is left exhausted with [eofbit] and [failbit] set.  When
    it cannot be allocated, the call throws [std::bad_alloc] right after
    the length field, with the heap untouched and [*buffer] null. *)
Theorem ReadRecord_truncated_payload_if_allocated `{Platform}
    available f h len lenfield rest :
  good (i_state f) = true -> i_is_open f = true ->
  i_unread f = magic_bytes ++ lenfield ++ rest ->
  length lenfield = sizeof_size_t ->
  Z.of_nat (length rest) < decode_uint byte_order lenfield ->
  (decode_uint byte_order lenfield <= available ->
   exists r,
     BoundedHeap.ReadRecord available f h len = BoundedHeap.Returned r
     /\ RecordReader.raw_ok r = false
     /\ RecordReader.raw_buffer r = None
     /\ RecordReader.raw_heap r = h
     /\ RecordReader.raw_heap r
          !! snd (new_array h (Z.to_nat (decode_uint byte_order lenfield))) = None
     /\ RecordReader.raw_len r = decode_uint byte_order lenfield
     /\ RecordReader.raw_file r = i_setstate eof_and_fail (i_at f []))
  /\ (available < decode_uint byte_order lenfield ->
      BoundedHeap.ReadRecord available f h len
      = BoundedHeap.Threw_bad_alloc (i_at f rest) h None
          (decode_uint byte_order lenfield)).
Proof.
  intros Hg Ho Hu Hl Hshort.
  rewrite (BoundedHeap_ReadRecord_after_header available f h len lenfield rest)
    by assumption.
  split.
  - intros Hfits.
    destruct (Z.ltb_spec available (decode_uint byte_order lenfield)) as [Hlt|_];
      [lia|].
    exists (RecordReader.ReadRecord f h len). split; [reflexivity|].
    apply (ReadRecord_truncated_payload f h len lenfield rest); assumption.
  - intros Hbig.
    destruct (Z.ltb_spec available (decode_uint byte_order lenfield)) as [_|Hge];
      [reflexivity | lia].
Qed.

Lemma ReadRecord_truncated_payload_if_allocated_witness :
  exists r,
    @BoundedHeap.ReadRecord lp64_le (2 ^ 63 - 1)
      (open_ifstream
         (@magic_bytes lp64_le ++ @size_bytes lp64_le 5
          ++ [Byte.x41; Byte.x42; Byte.x43]))
      {[ 1%positive := [Byte.x07] ]} 0
    = BoundedHeap.Returned r
    /\ RecordReader.raw_ok r = false
    /\ RecordReader.raw_buffer r = None
    /\ RecordReader.raw_heap r = {[ 1%positive := [Byte.x07] ]}
    /\ RecordReader.raw_heap r
         !! snd (@new_array lp64_le {[ 1%positive := [Byte.x07] ]}
                   (Z.to_nat (@decode_uint LittleEndian (@size_bytes lp64_le 5))))
       = None
    /\ RecordReader.raw_len r = @decode_uint LittleEndian (@size_bytes lp64_le 5)
    /\ RecordReader.raw_file r
       = i_setstate eof_and_fail
           (i_at (open_ifstream
                    (@magic_bytes lp64_le ++ @size_bytes lp64_le 5
                     ++ [Byte.x41; Byte.x42; Byte.x43])) []).
Proof.
  apply (proj1 (@ReadRecord_truncated_payload_if_allocated lp64_le (2 ^ 63 - 1)
                  (open_ifstream
                     (@magic_bytes lp64_le ++ @size_bytes lp64_le 5
                      ++ [Byte.x41; Byte.x42; Byte.x43]))
                  {[ 1%positive := [Byte.x07] ]} 0
                  (@size_bytes lp64_le 5) [Byte.x41; Byte.x42; Byte.x43]
                  ltac:(reflexivity) ltac:(reflexivity) ltac:(reflexivity)
                  ltac:(reflexivity) ltac:(reflexivity))
           ltac:(vm_compute; discriminate)).
Defined.

(** C8.  A failing [ReadRecord] produces nothing.  On the raw path a
    false return comes with a null [*buffer] and an unchanged heap, and a
    true return with a [*buffer] that points to a new block of [*len]
    characters.  On the string path a false return leaves the caller's
    string as it was, and a true return hands over the payload of the raw
    path and deletes the intermediate block. *)
Theorem ReadRecord_failure_gives_nothing `{Platform} f h len (data : list byte) :
  let r := RecordReader.ReadRecord f h len in
  let r0 := RecordReader.ReadRecord f h 0 in
  let s := RecordReader.ReadRecord_string f h data in
  (RecordReader.raw_ok r = false ->
     RecordReader.raw_buffer r = None /\ RecordReader.raw_heap r = h)
  /\ (RecordReader.raw_ok r = true ->
        exists p payload,
          RecordReader.raw_buffer r = Some p
          /\ h !! p = None
          /\ RecordReader.raw_heap r = <[p := payload]> h
          /\ Z.of_nat (length payload) = RecordReader.raw_len r)
  /\ RecordReader.str_ok s = RecordReader.raw_ok r0
  /\ (RecordReader.str_ok s = false ->
        RecordReader.str_data s = data /\ RecordReader.str_heap s = h)
  /\ (RecordReader.str_ok s = true ->
        RecordReader.str_heap s = h
        /\ Some (RecordReader.str_data s)
           = (RecordReader.raw_buffer r0 ≫= fun p => RecordReader.raw_heap r0 !! p)).
Proof.
  intros r r0 s. split; [|split].
  - intros Hr.
    destruct (ReadRecord_cases f h len) as [(_ & Hbuf & Hheap)|(Hok & _)];
      [split; assumption|].
    fold r in Hok. congruence.
  - intros Hr.
    destruct (ReadRecord_cases f h len)
      as [(Hok & _)|(_ & _ & payload & Hb & Hh & Hl)].
    + fold r in Hok. congruence.
    + exists (fresh (dom h)), payload. repeat split; try assumption.
      apply fresh_block_unused.
  - apply ReadRecord_string_cases.
Qed.

Lemma ReadRecord_failure_gives_nothing_witness :
  RecordReader.str_data
    (@RecordReader.ReadRecord_string lp64_le
       (open_ifstream [Byte.x0a; Byte.x23]) ∅ [Byte.x6f; Byte.x6c; Byte.x64])
  = [Byte.x6f; Byte.x6c; Byte.x64]
  /\ RecordReader.str_heap
       (@RecordReader.ReadRecord_string lp64_le
          (open_ifstream [Byte.x0a; Byte.x23]) ∅ [Byte.x6f; Byte.x6c; Byte.x64])
     = ∅.
Proof.
  apply (proj1 (proj2 (proj2 (proj2
           (@ReadRecord_failure_gives_nothing lp64_le
              (open_ifstream [Byte.x0a; Byte.x23]) ∅ 0
              [Byte.x6f; Byte.x6c; Byte.x64]))))
           ltac:(reflexivity)).
Defined.

(** C9.  On a stream with nothing to read (a freshly opened empty file),
    the first [ReadRecord] fails at once: it returns false, hands over no
    payload, allocates nothing, and leaves [*len] and the caller's string
    alone.  Its only effect is the failure signal: [eofbit] and [failbit]
    in the stream state. *)
Theorem ReadRecord_on_empty_stream `{Platform} f h len (data : list byte) :
  good (i_state f) = true -> source f = [] ->
  RecordReader.ReadRecord f h len
  = RecordReader.RawResult false (i_setstate eof_and_fail f) h None len
  /\ RecordReader.ReadRecord_string f h data
     = RecordReader.StringResult false (i_setstate eof_and_fail f) h data.
Proof.
  intros Hg Hs. split; [apply ReadRecord_exhausted; assumption|].
  unfold RecordReader.ReadRecord_string.
  rewrite ReadRecord_exhausted by assumption. reflexivity.
Qed.

Lemma ReadRecord_on_empty_stream_witness :
  @RecordReader.ReadRecord lp64_le (open_ifstream []) ∅ 0
  = RecordReader.RawResult false (Ifstream eof_and_fail true [] true) ∅ None 0.
Proof.
  apply (proj1 (@ReadRecord_on_empty_stream lp64_le (open_ifstream []) ∅ 0 []
                  ltac:(reflexivity) ltac:(reflexivity))).
Defined.

(** ** [Close] *)

(** C10, as stated, fails after a read that hit the end of the file: the
    file closes without error, and [Close] still returns true, because
    [failbit] is left over from the read. *)
Lemma Close_after_failed_read_counterexample :
  ~ (snd (RecordReader.Close
            (RecordReader.raw_file
               (@RecordReader.ReadRecord lp64_le (open_ifstream []) ∅ 0))) = true
     <-> filebuf_close
           (i_is_open (RecordReader.raw_file
                         (@RecordReader.ReadRecord lp64_le (open_ifstream []) ∅ 0)))
           (i_close_ok (RecordReader.raw_file
                          (@RecordReader.ReadRecord lp64_le (open_ifstream []) ∅ 0)))
         = false).
Proof.
  intros [Hclose _]. specialize (Hclose eq_refl). discriminate Hclose.
Qed.

(** C10, amended.  [Close] of either class returns the stream's [fail()]
    as it is after closing: true when closing the file failed or when an
    earlier operation had already left the stream failed.  On a stream
    without an earlier failure it returns true exactly when closing
    failed.  The writing and reading calls have the other polarity: they
    return true when the stream has not failed. *)
Theorem Close_returns_fail_state `{Platform}
    (out : ofstream) (inp : ifstream) (buffer : list byte) (len : Z) (h : heap) :
  snd (RecordWriter.Close out)
  = fail (o_state out) || negb (filebuf_close (o_is_open out) (o_close_ok out))
  /\ snd (RecordReader.Close inp)
     = fail (i_state inp) || negb (filebuf_close (i_is_open inp) (i_close_ok inp))
  /\ (fail (o_state out) = false ->
      (snd (RecordWriter.Close out) = true
       <-> filebuf_close (o_is_open out) (o_close_ok out) = false))
  /\ (fail (i_state inp) = false ->
      (snd (RecordReader.Close inp) = true
       <-> filebuf_close (i_is_open inp) (i_close_ok inp) = false))
  /\ snd (RecordWriter.WriteRecord out buffer len)
     = negb (fail (o_state (fst (RecordWriter.WriteRecord out buffer len))))
  /\ (RecordReader.raw_ok (RecordReader.ReadRecord inp h len) = true ->
      fail (i_state (RecordReader.raw_file (RecordReader.ReadRecord inp h len)))
      = false).
Proof.
  assert (Hw : snd (RecordWriter.Close out)
               = fail (o_state out)
                 || negb (filebuf_close (o_is_open out) (o_close_ok out))).
  { unfold RecordWriter.Close, ofstream_close. cbn [snd].
    destruct (filebuf_close (o_is_open out) (o_close_ok out));
      cbn [o_state o_setstate negb].
    - symmetry. apply orb_false_r.
    - rewrite fail_ios_or. reflexivity. }
  assert (Hr : snd (RecordReader.Close inp)
               = fail (i_state inp)
                 || negb (filebuf_close (i_is_open inp) (i_close_ok inp))).
  { unfold RecordReader.Close, ifstream_close. cbn [snd].
    destruct (filebuf_close (i_is_open inp) (i_close_ok inp));
      cbn [i_state i_setstate negb].
    - symmetry. apply orb_false_r.
    - rewrite fail_ios_or. reflexivity. }
  split; [exact Hw|]. split; [exact Hr|]. split; [|split; [|split]].
  - intros Hf. rewrite Hw, Hf. cbn [orb]. apply negb_true_iff.
  - intros Hf. rewrite Hr, Hf. cbn [orb]. apply negb_true_iff.
  - reflexivity.
  - intros Hok.
    destruct (ReadRecord_cases inp h len) as [(Hno & _)|(_ & Hfail & _)];
      [congruence | exact Hfail].
Qed.

Lemma Close_returns_fail_state_witness :
  snd (RecordWriter.Close fresh_ofstream) = true
  <-> filebuf_close (o_is_open fresh_ofstream) (o_close_ok fresh_ofstream) = false.
Proof.
  apply (proj1 (proj2 (proj2
           (@Close_returns_fail_state lp64_le fresh_ofstream (open_ifstream [])
              [] 0 ∅)))
           ltac:(reflexivity)).
Defined.

(** * Further properties of the code *)

(** ** Streams that have failed *)

Section FailedStreams.
Context `{Platform}.

Lemma ReadRecord_not_good f h len :
  good (i_state f) = false ->
  RecordReader.ReadRecord f h len
  = RecordReader.RawResult false (i_setstate only_failbit f) h None len.
Proof.
  intros Hg. unfold RecordReader.ReadRecord.
  rewrite istream_read_not_good by exact Hg.
  cbn [i_state i_setstate]. rewrite fail_ios_or.
  replace (fail only_failbit) with true by reflexivity.
  rewrite orb_true_r. reflexivity.
Qed.

Lemma ReadRecordSized_not_good f buffer len :
  good (i_state f) = false ->
  RecordReader.ReadRecordSized f buffer len
  = RecordReader.SizedResult false (i_setstate only_failbit f) buffer.
Proof.
  intros Hg. unfold RecordReader.ReadRecordSized.
  rewrite istream_read_not_good by exact Hg.
  cbn [i_state i_setstate]. rewrite fail_ios_or.
  replace (fail only_failbit) with true by reflexivity.
  rewrite orb_true_r. reflexivity.
Qed.

Lemma ReadRecords_not_good k : forall f h,
  good (i_state f) = false ->
  RecordReader.ReadRecords k f h = replicate k None.
Proof.
  induction k as [|k IH]; intros f h Hg; [reflexivity|].
  rewrite ReadRecords_S, ReadRecord_not_good by exact Hg.
  cbn [RecordReader.raw_ok RecordReader.raw_file RecordReader.raw_heap replicate].
  rewrite IH by apply good_ios_or_fail. reflexivity.
Qed.

Lemma WriteRecord_failed f buffer len :
  fail (o_state f) = true ->
  fail (o_state (fst (RecordWriter.WriteRecord f buffer len))) = true
  /\ o_written (fst (RecordWriter.WriteRecord f buffer len)) = o_written f
  /\ snd (RecordWriter.WriteRecord f buffer len) = false.
Proof.
  intros Hf. unfold RecordWriter.WriteRecord. cbn [fst snd].
  destruct (ostream_write_failed f
              (encode_uint byte_order sizeof_int RecordWriter.kMagicNumber)
              sizeof_int Hf) as [F1 W1].
  destruct (ostream_write_failed _
              (encode_uint byte_order sizeof_size_t len) sizeof_size_t F1)
    as [F2 W2].
  destruct (ostream_write_failed _ buffer (Z.to_nat len) F2) as [F3 W3].
  rewrite F3, W3, W2, W1. repeat split.
Qed.

Lemma WriteRecords_failed records : forall f,
  fail (o_state f) = true ->
  fail (o_state (fst (RecordWriter.WriteRecords f records))) = true
  /\ o_written (fst (RecordWriter.WriteRecords f records)) = o_written f
  /\ snd (RecordWriter.WriteRecords f records) = replicate (length records) false.
Proof.
  induction records as [|data rest IH]; intros f Hf.
  - cbn. repeat split. exact Hf.
  - cbn [RecordWriter.WriteRecords]. unfold RecordWriter.WriteRecord_string.
    destruct (WriteRecord_failed f data (Z.of_nat (length data)) Hf)
      as (F1 & W1 & S1).
    destruct (RecordWriter.WriteRecord f data (Z.of_nat (length data)))
      as [f1 ok1].
    cbn [fst snd] in F1, W1, S1. subst ok1.
    destruct (IH f1 F1) as (F2 & W2 & S2).
    destruct (RecordWriter.WriteRecords f1 rest) as [f2 oks].
    cbn [fst snd] in *. rewrite W2, W1, S2. repeat split. exact F2.
Qed.

End FailedStreams.

(** X1.  Once the stream is not good (a read ran into the end of the file,
    or the file never opened), every later read fails without touching
    anything: any number of raw [ReadRecord] calls all fail, and the
    fixed-size reader fails and leaves the caller's storage alone.  The
    unread characters stay where they are. *)
Theorem reads_after_stream_failure `{Platform} f h (buffer : list byte) len k :
  good (i_state f) = false ->
  RecordReader.ReadRecords k f h = replicate k None
  /\ RecordReader.ReadRecord f h len
     = RecordReader.RawResult false (i_setstate only_failbit f) h None len
  /\ RecordReader.ReadRecordSized f buffer len
     = RecordReader.SizedResult false (i_setstate only_failbit f) buffer
  /\ i_unread (i_setstate only_failbit f) = i_unread f.
Proof.
  intros Hg. split; [apply ReadRecords_not_good, Hg|].
  split; [apply ReadRecord_not_good, Hg|].
  split; [apply ReadRecordSized_not_good, Hg | reflexivity].
Qed.

Lemma reads_after_stream_failure_witness :
  @RecordReader.ReadRecords lp64_le 3
    (Ifstream eof_and_fail true (@frame lp64_le [Byte.x41]) true) ∅
  = [None; None; None].
Proof.
  apply (proj1 (@reads_after_stream_failure lp64_le
                  (Ifstream eof_and_fail true (@frame lp64_le [Byte.x41]) true)
                  ∅ [] 0 3 ltac:(reflexivity))).
Defined.

(** X2.  A magic mismatch is a failure of the call but not of the stream:
    [ReadRecord] leaves the stream good, four characters further on, and
    the next call succeeds when a frame starts there. *)
Theorem ReadRecord_resumes_after_bad_magic `{Platform} f h junk payload rest :
  good (i_state f) = true -> i_is_open f = true ->
  length junk = sizeof_int -> junk <> magic_bytes ->
  i_unread f = junk ++ frame payload ++ rest ->
  Z.of_nat (length payload) < size_t_modulus ->
  RecordReader.ReadRecord f h 0
  = RecordReader.RawResult false (i_at f (frame payload ++ rest)) h None 0
  /\ RecordReader.ReadRecords 2 f h = [None; Some payload].
Proof.
  intros Hg Ho Hl Hj Hu Hsize.
  assert (H1 : RecordReader.ReadRecord f h 0
               = RecordReader.RawResult false (i_at f (frame payload ++ rest))
                   h None 0).
  { unfold RecordReader.ReadRecord.
    rewrite (istream_read_full f sizeof_int junk (frame payload ++ rest))
      by assumption.
    rewrite stored_full by (rewrite length_encode_uint; lia).
    cbn [i_state i_at]. rewrite (good_not_fail _ Hg). cbn [orb].
    destruct (Z.eqb_spec (decode_sint byte_order junk) RecordWriter.kMagicNumber)
      as [E|_]; [|reflexivity].
    exfalso. apply Hj. apply decode_sint_is_magic; assumption. }
  split; [exact H1|].
  rewrite ReadRecords_S, H1.
  cbn [RecordReader.raw_ok RecordReader.raw_file RecordReader.raw_heap].
  rewrite ReadRecords_S.
  rewrite (ReadRecord_frame (i_at f _) h 0 payload rest)
    by (try reflexivity; assumption).
  cbn [RecordReader.raw_ok RecordReader.raw_heap RecordReader.raw_buffer
       RecordReader.raw_len RecordReader.raw_file RecordReader.ReadRecords].
  unfold load. rewrite lookup_insert_eq, Nat2Z.id. cbn [default].
  rewrite take_ge by reflexivity. reflexivity.
Qed.

Lemma ReadRecord_resumes_after_bad_magic_witness :
  @RecordReader.ReadRecords lp64_le 2
    (open_ifstream ([Byte.x00; Byte.x01; Byte.x02; Byte.x03]
                    ++ @frame lp64_le [Byte.x41; Byte.x42] ++ [])) ∅
  = [None; Some [Byte.x41; Byte.x42]].
Proof.
  apply (proj2 (@ReadRecord_resumes_after_bad_magic lp64_le
                  (open_ifstream ([Byte.x00; Byte.x01; Byte.x02; Byte.x03]
                                  ++ @frame lp64_le [Byte.x41; Byte.x42] ++ []))
                  ∅ [Byte.x00; Byte.x01; Byte.x02; Byte.x03]
                  [Byte.x41; Byte.x42] []
                  ltac:(reflexivity) ltac:(reflexivity) ltac:(reflexivity)
                  ltac:(vm_compute; discriminate) ltac:(reflexivity)
                  ltac:(reflexivity))).
Defined.

(** X3.  A writer whose stream has failed stays failed: every later
    [WriteRecord] returns false and adds nothing to the file, however
    small the record. *)
Theorem writes_after_stream_failure `{Platform} f (records : list (list byte)) :
  fail (o_state f) = true ->
  o_written (fst (RecordWriter.WriteRecords f records)) = o_written f
  /\ snd (RecordWriter.WriteRecords f records) = replicate (length records) false
  /\ fail (o_state (fst (RecordWriter.WriteRecords f records))) = true.
Proof.
  intros Hf. destruct (WriteRecords_failed records f Hf) as (F & W & S).
  repeat split; assumption.
Qed.

Lemma writes_after_stream_failure_witness :
  snd (@RecordWriter.WriteRecords lp64_le
         (fst (@RecordWriter.WriteRecord lp64_le
                 (Ofstream goodbit true [] (Some 20%nat) true)
                 [Byte.x41; Byte.x42; Byte.x43; Byte.x44; Byte.x45;
                  Byte.x46; Byte.x47; Byte.x48; Byte.x49] 9))
         [[]; [Byte.x41]])
  = [false; false].
Proof.
  apply (proj1 (proj2 (@writes_after_stream_failure lp64_le
                  (fst (@RecordWriter.WriteRecord lp64_le
                          (Ofstream goodbit true [] (Some 20%nat) true)
                          [Byte.x41; Byte.x42; Byte.x43; Byte.x44; Byte.x45;
                           Byte.x46; Byte.x47; Byte.x48; Byte.x49] 9))
                  [[]; [Byte.x41]] ltac:(reflexivity)))).
Defined.

(** ** More on the fixed-size path *)

(** X4.  When the payload of a frame of the expected size is cut short,
    the fixed-size reader fails, but only after the characters that were
    there have been stored: the front of the caller's storage is
    overwritten with them, the rest keeps its old contents.  The stream
    is left exhausted with [eofbit] and [failbit] set. *)
Theorem ReadRecordSized_short_payload_overwrites `{Platform}
    f (buffer part : list byte) :
  good (i_state f) = true -> i_is_open f = true ->
  i_unread f = magic_bytes ++ size_bytes (Z.of_nat (length buffer)) ++ part ->
  (length part < length buffer)%nat ->
  Z.of_nat (length buffer) < size_t_modulus ->
  RecordReader.Read (length buffer) f buffer
  = RecordReader.SizedResult false (i_setstate eof_and_fail (i_at f []))
      (part ++ drop (length part) buffer).
Proof.
  intros Hg Ho Hu Hshort Hsize.
  unfold RecordReader.Read, RecordReader.ReadRecordSized.
  rewrite (read_magic_at_frame f _ Hg Ho Hu).
  rewrite stored_magic_bytes by apply length_encode_uint.
  rewrite decode_sint_magic_bytes, Z.eqb_refl.
  cbn [i_state i_at]. rewrite (good_not_fail _ Hg). cbn [negb orb].
  rewrite (istream_read_full (i_at f _) sizeof_size_t
             (size_bytes (Z.of_nat (length buffer))) part)
    by (try apply length_size_bytes; try reflexivity; assumption).
  rewrite stored_size_bytes by apply length_uninitialized.
  rewrite decode_size_bytes by lia.
  cbn [i_state i_at]. rewrite (good_not_fail _ Hg), Z.eqb_refl, Nat2Z.id.
  cbn [negb orb]. rewrite ?i_at_i_at.
  rewrite istream_read_short;
    [| exact Hg | unfold source; cbn [i_is_open i_unread i_at]; rewrite Ho; lia].
  unfold source. cbn [i_is_open i_unread i_at i_state i_setstate].
  rewrite Ho, fail_ios_or.
  replace (fail eof_and_fail) with true by reflexivity. rewrite orb_true_r.
  rewrite drop_all. reflexivity.
Qed.

Lemma ReadRecordSized_short_payload_overwrites_witness :
  @RecordReader.Read lp64_le 4
    (open_ifstream (@magic_bytes lp64_le ++ @size_bytes lp64_le 4
                    ++ [Byte.x41; Byte.x42]))
    [Byte.x30; Byte.x31; Byte.x32; Byte.x33]
  = RecordReader.SizedResult false (Ifstream eof_and_fail true [] true)
      [Byte.x41; Byte.x42; Byte.x32; Byte.x33].
Proof.
  apply (@ReadRecordSized_short_payload_overwrites lp64_le
           (open_ifstream (@magic_bytes lp64_le ++ @size_bytes lp64_le 4
                           ++ [Byte.x41; Byte.x42]))
           [Byte.x30; Byte.x31; Byte.x32; Byte.x33] [Byte.x41; Byte.x42]
           ltac:(reflexivity) ltac:(reflexivity) ltac:(reflexivity)
           ltac:(cbn; lia) ltac:(reflexivity)).
Defined.

(** X5.  The fixed-size and the string paths share one format.  A value
    written with [Write<T>] comes back through the string [ReadRecord] as
    its [sizeof(T)] characters, and a string written with [WriteRecord]
    comes back through [Read<T>] for a type of the string's size.  In
    both directions the intermediate heap is left as it was. *)
Theorem fixed_size_and_string_paths_interoperate `{Platform}
    (V dest old : list byte) (h : heap) :
  length dest = length V ->
  Z.of_nat (length V) < size_t_modulus ->
  RecordReader.ReadRecord_string
    (open_ifstream
       (o_written (fst (RecordWriter.Write (length V) fresh_ofstream V))))
    h old
  = RecordReader.StringResult true (open_ifstream []) h V
  /\ RecordReader.Read (length V)
       (open_ifstream
          (o_written (fst (RecordWriter.WriteRecord_string fresh_ofstream V))))
       dest
     = RecordReader.SizedResult true (open_ifstream []) V.
Proof.
  intros Hdest Hsize.
  assert (Hw : RecordWriter.Write (length V) fresh_ofstream V
               = RecordWriter.WriteRecord_string fresh_ofstream V) by reflexivity.
  rewrite Hw, WriteRecord_string_unlimited by reflexivity.
  cbn [fst o_written o_append fresh_ofstream app]. split.
  - unfold RecordReader.ReadRecord_string.
    rewrite (ReadRecord_frame _ h 0 V []);
      [| reflexivity | reflexivity
       | cbn [i_unread open_ifstream]; rewrite app_nil_r; reflexivity
       | exact Hsize].
    cbn [negb RecordReader.raw_ok RecordReader.raw_heap RecordReader.raw_buffer
         RecordReader.raw_len RecordReader.raw_file].
    unfold load, delete_array. rewrite lookup_insert_eq, delete_insert_eq.
    rewrite (delete_id h) by apply fresh_block_unused.
    cbn [default]. rewrite Nat2Z.id. rewrite take_ge by reflexivity. reflexivity.
  - unfold RecordReader.Read.
    rewrite (ReadRecordSized_frame _ dest V []);
      [reflexivity | reflexivity | reflexivity
       | cbn [i_unread open_ifstream]; rewrite app_nil_r; reflexivity
       | exact Hsize | exact Hdest].
Qed.

Lemma fixed_size_and_string_paths_interoperate_witness :
  RecordReader.str_data
    (@RecordReader.ReadRecord_string lp64_le
       (open_ifstream
          (o_written (fst (@RecordWriter.Write lp64_le 3 fresh_ofstream
                             [Byte.x41; Byte.x42; Byte.x43]))))
       ∅ [Byte.x6f])
  = [Byte.x41; Byte.x42; Byte.x43].
Proof.
  apply (f_equal RecordReader.str_data
           (proj1 (@fixed_size_and_string_paths_interoperate lp64_le
                     [Byte.x41; Byte.x42; Byte.x43]
                     [Byte.x00; Byte.x00; Byte.x00] [Byte.x6f] ∅
                     ltac:(reflexivity) ltac:(reflexivity)))).
Defined.

(** ** The file determines the records *)

Section Decodable.
Context `{Platform}.

Lemma frames_injective (xs : list (list byte)) : forall ys,
  Forall (fun p => Z.of_nat (length p) < size_t_modulus) xs ->
  Forall (fun p => Z.of_nat (length p) < size_t_modulus) ys ->
  concat (frame <$> xs) = concat (frame <$> ys) -> xs = ys.
Proof.
  induction xs as [|x xs IH]; intros [|y ys] Hxs Hys Heq.
  - reflexivity.
  - apply (f_equal length) in Heq. cbn in Heq.
    rewrite length_app, length_frame in Heq. unfold sizeof_int in Heq. lia.
  - apply (f_equal length) in Heq. cbn in Heq.
    rewrite length_app, length_frame in Heq. unfold sizeof_int in Heq. lia.
  - apply Forall_cons in Hxs as [Hx Hxs]. apply Forall_cons in Hys as [Hy Hys].
    cbn [fmap list_fmap concat] in Heq. unfold frame in Heq.
    rewrite <- !app_assoc in Heq.
    apply app_inj_1 in Heq as [_ Heq]; [|reflexivity].
    apply app_inj_1 in Heq as [Hlen Heq];
      [|rewrite !length_size_bytes; reflexivity].
    apply (f_equal (decode_uint byte_order)) in Hlen.
    rewrite !decode_size_bytes in Hlen by lia.
    apply app_inj_1 in Heq as [-> Heq]; [|lia].
    f_equal. apply IH; assumption.
Qed.

End Decodable.

(** X6.  Two sequences of records that leave the same characters in the
    file are the same sequence: the format has no ambiguity between, say,
    one long record and two short ones. *)
Theorem written_file_determines_records `{Platform} (xs ys : list (list byte)) :
  Forall (fun p => Z.of_nat (length p) < size_t_modulus) xs ->
  Forall (fun p => Z.of_nat (length p) < size_t_modulus) ys ->
  o_written (fst (RecordWriter.WriteRecords fresh_ofstream xs))
  = o_written (fst (RecordWriter.WriteRecords fresh_ofstream ys)) ->
  xs = ys.
Proof.
  intros Hxs Hys Heq.
  destruct (WriteRecords_unlimited xs fresh_ofstream eq_refl eq_refl) as [Hx _].
  destruct (WriteRecords_unlimited ys fresh_ofstream eq_refl eq_refl) as [Hy _].
  rewrite Hx, Hy in Heq. cbn [o_written fresh_ofstream app] in Heq.
  apply frames_injective; assumption.
Qed.

Lemma written_file_determines_records_witness :
  [[Byte.x41]; []] = [[Byte.x41]; []].
Proof.
  apply (@written_file_determines_records lp64_le [[Byte.x41]; []] [[Byte.x41]; []]
           ltac:(repeat constructor) ltac:(repeat constructor)
           ltac:(reflexivity)).
Defined.

(** ** Protocol messages *)

Section MessageFacts.
Context `{Platform}.
Context {MessageLite : Type}.
Variable ParseFromArray : MessageLite -> list byte -> MessageLite * bool.

Lemma load_new_block (h : heap) (payload : list byte) :
  load (<[fresh (dom h) := payload]> h) (Some (fresh (dom h)))
       (Z.to_nat (Z.of_nat (length payload))) = payload.
Proof.
  unfold load. rewrite lookup_insert_eq, Nat2Z.id. cbn [default].
  apply take_ge. reflexivity.
Qed.

(** [ReadProtocolMessage] on a stream positioned at a whole frame: what
    happens depends on the parser alone. *)
Lemma ReadProtocolMessage_frame f h message payload rest :
  good (i_state f) = true -> i_is_open f = true ->
  i_unread f = frame payload ++ rest ->
  Z.of_nat (length payload) < size_t_modulus ->
  ProtocolMessages.ReadProtocolMessage ParseFromArray f h message
  = if snd (ParseFromArray message payload)
    then ProtocolMessages.MessageResult true (i_at f rest) h
           (fst (ParseFromArray message payload))
    else ProtocolMessages.MessageResult false (i_at f rest)
           (<[fresh (dom h) := payload]> h)
           (fst (ParseFromArray message payload)).
Proof.
  intros Hg Ho Hu Hsize. unfold ProtocolMessages.ReadProtocolMessage.
  rewrite (ReadRecord_frame f h 0 payload rest) by assumption.
  cbn [negb RecordReader.raw_ok RecordReader.raw_heap RecordReader.raw_buffer
       RecordReader.raw_len RecordReader.raw_file].
  rewrite load_new_block.
  destruct (ParseFromArray message payload) as [message' parsed].
  cbn [fst snd]. destruct parsed; cbn [negb]; [|reflexivity].
  unfold delete_array. rewrite delete_insert_eq.
  rewrite (delete_id h) by apply fresh_block_unused. reflexivity.
Qed.

End MessageFacts.

(** X7.  When a frame is read but its payload does not parse,
    [ReadProtocolMessage] returns false without deleting the block that
    holds the payload: the block stays on the heap, at an address that
    was free before the call and that the caller never learns. *)
Theorem ReadProtocolMessage_keeps_block_on_parse_failure `{Platform}
    {MessageLite : Type}
    (ParseFromArray : MessageLite -> list byte -> MessageLite * bool)
    f h message payload rest :
  good (i_state f) = true -> i_is_open f = true ->
  i_unread f = frame payload ++ rest ->
  Z.of_nat (length payload) < size_t_modulus ->
  snd (ParseFromArray message payload) = false ->
  ProtocolMessages.ReadProtocolMessage ParseFromArray f h message
  = ProtocolMessages.MessageResult false (i_at f rest)
      (<[fresh (dom h) := payload]> h) (fst (ParseFromArray message payload))
  /\ h !! fresh (dom h) = None
  /\ ProtocolMessages.msg_heap
       (ProtocolMessages.ReadProtocolMessage ParseFromArray f h message)
     <> h.
Proof.
  intros Hg Ho Hu Hsize Hparse.
  rewrite (ReadProtocolMessage_frame ParseFromArray f h message payload rest)
    by assumption.
  rewrite Hparse. split; [reflexivity|].
  split; [apply fresh_block_unused|].
  cbn [ProtocolMessages.msg_heap]. intros Heq.
  pose proof (fresh_block_unused h) as Hnone.
  pose proof (lookup_insert_eq h (fresh (dom h)) payload) as Hsome.
  rewrite Heq in Hsome. congruence.
Qed.

Lemma ReadProtocolMessage_keeps_block_on_parse_failure_witness :
  ProtocolMessages.msg_heap
    (@ProtocolMessages.ReadProtocolMessage lp64_le nat
       (fun m bs => (m, false))
       (open_ifstream (@frame lp64_le [Byte.x41] ++ [])) ∅ 7%nat)
  <> ∅.
Proof.
  apply (proj2 (proj2
           (@ReadProtocolMessage_keeps_block_on_parse_failure lp64_le nat
              (fun m bs => (m, false))
              (open_ifstream (@frame lp64_le [Byte.x41] ++ [])) ∅ 7%nat
              [Byte.x41] []
              ltac:(reflexivity) ltac:(reflexivity) ltac:(reflexivity)
              ltac:(reflexivity) ltac:(reflexivity)))).
Defined.

(** X8.  In every other outcome [ReadProtocolMessage] leaves the heap as
    it found it: when it returns true the block has been deleted and the
    message is the parser's, and when no frame could be read the parser
    is not run and the message is untouched. *)
Theorem ReadProtocolMessage_releases_block_otherwise `{Platform}
    {MessageLite : Type}
    (ParseFromArray : MessageLite -> list byte -> MessageLite * bool)
    f h message :
  let r := RecordReader.ReadRecord f h 0 in
  let res := ProtocolMessages.ReadProtocolMessage ParseFromArray f h message in
  (ProtocolMessages.msg_ok res = true ->
     ProtocolMessages.msg_heap res = h
     /\ RecordReader.raw_ok r = true
     /\ exists payload,
          RecordReader.raw_heap r !! fresh (dom h) = Some payload
          /\ ParseFromArray message payload
             = (ProtocolMessages.msg_message res, true))
  /\ (RecordReader.raw_ok r = false ->
        res = ProtocolMessages.MessageResult false (RecordReader.raw_file r) h
                message).
Proof.
  intros r res. subst res. unfold ProtocolMessages.ReadProtocolMessage.
  cbn zeta. fold r.
  destruct (ReadRecord_cases f h 0)
    as [(Hok & Hbuf & Hheap)|(Hok & _ & payload & Hb & Hh & Hl)].
  - fold r in Hok, Hbuf, Hheap. rewrite Hok. cbn [negb]. split.
    + cbn [ProtocolMessages.msg_ok]. discriminate.
    + intros _. rewrite Hheap. reflexivity.
  - fold r in Hok, Hb, Hh, Hl. rewrite Hok. cbn [negb].
    split; [|discriminate].
    rewrite Hb, Hh, <- Hl, load_new_block.
    destruct (ParseFromArray message payload) as [message' parsed] eqn:Hparse.
    destruct parsed; cbn [negb ProtocolMessages.msg_ok]; [|discriminate].
    intros _. cbn [ProtocolMessages.msg_heap ProtocolMessages.msg_message].
    unfold delete_array. rewrite delete_insert_eq.
    rewrite (delete_id h) by apply fresh_block_unused.
    split; [reflexivity|]. split; [reflexivity|].
    exists payload. rewrite lookup_insert_eq. split; [reflexivity | exact Hparse].
Qed.

Lemma ReadProtocolMessage_releases_block_otherwise_witness :
  @ProtocolMessages.ReadProtocolMessage lp64_le nat
    (fun m bs => (length bs, true)) (open_ifstream []) ∅ 7%nat
  = ProtocolMessages.MessageResult false
      (RecordReader.raw_file (@RecordReader.ReadRecord lp64_le (open_ifstream []) ∅ 0))
      ∅ 7%nat.
Proof.
  apply (proj2 (@ReadProtocolMessage_releases_block_otherwise lp64_le nat
                  (fun m bs => (length bs, true)) (open_ifstream []) ∅ 7%nat)
           ltac:(reflexivity)).
Defined.

(** X9.  Messages round-trip when the parser undoes the serializer: a
    message written with [WriteProtocolMessage] to a fresh stream is read
    back by [ReadProtocolMessage], which returns true, stops at the end
    of the file and leaves the heap as it was. *)
Theorem protocol_message_roundtrip `{Platform} {MessageLite : Type}
    (SerializeAsString : MessageLite -> list byte)
    (ParseFromArray : MessageLite -> list byte -> MessageLite * bool)
    (message target : MessageLite) (h : heap) :
  ParseFromArray target (SerializeAsString message) = (message, true) ->
  Z.of_nat (length (SerializeAsString message)) < size_t_modulus ->
  let written :=
    ProtocolMessages.WriteProtocolMessage SerializeAsString fresh_ofstream message in
  snd written = true
  /\ ProtocolMessages.ReadProtocolMessage ParseFromArray
       (open_ifstream (o_written (fst written))) h target
     = ProtocolMessages.MessageResult true (open_ifstream []) h message.
Proof.
  intros Hparse Hsize written. subst written.
  unfold ProtocolMessages.WriteProtocolMessage.
  rewrite WriteRecord_string_unlimited by reflexivity.
  cbn [fst snd o_written o_append fresh_ofstream app].
  split; [reflexivity|].
  rewrite (ReadProtocolMessage_frame ParseFromArray _ h target
             (SerializeAsString message) []);
    [| reflexivity | reflexivity
     | cbn [i_unread open_ifstream]; rewrite app_nil_r; reflexivity
     | exact Hsize].
  rewrite Hparse. reflexivity.
Qed.

Lemma protocol_message_roundtrip_witness :
  @ProtocolMessages.ReadProtocolMessage lp64_le (list byte)
    (fun m bs => (bs, true))
    (open_ifstream
       (o_written
          (fst (@ProtocolMessages.WriteProtocolMessage lp64_le (list byte)
                  (fun m => m) fresh_ofstream [Byte.x08; Byte.x01]))))
    ∅ []
  = ProtocolMessages.MessageResult true (open_ifstream []) ∅ [Byte.x08; Byte.x01].
Proof.
  apply (proj2 (@protocol_message_roundtrip lp64_le (list byte)
                  (fun m => m) (fun m bs => (bs, true))
                  [Byte.x08; Byte.x01] [] ∅
                  ltac:(reflexivity) ltac:(reflexivity))).
Defined.

(** ** The thumbnail library: writing and reading *)

Section LibraryFacts.
Context `{Platform}.

Lemma length_Thumbnail_bytes t : length (Thumbnail_bytes t) = sizeof_Thumbnail.
Proof.
  unfold Thumbnail_bytes. rewrite length_app, !length_resize. reflexivity.
Qed.

Lemma Thumbnail_of_bytes_bytes t :
  Thumbnail_wf t -> Thumbnail_of_bytes (Thumbnail_bytes t) = t.
Proof.
  intros [Hf Hp]. destruct t as [fn px]. cbn [filename pixels] in Hf, Hp.
  unfold Thumbnail_of_bytes, Thumbnail_bytes. cbn [filename pixels].
  rewrite !resize_all_alt by (symmetry; assumption).
  rewrite take_app_length' by (symmetry; exact Hf).
  rewrite drop_app_length' by (symmetry; exact Hf).
  rewrite take_ge by (rewrite Hp; reflexivity). reflexivity.
Qed.

(** A successful fixed-size read has taken a whole frame's worth of
    characters from the stream. *)
Lemma ReadRecordSized_ok_consumes f buffer len :
  RecordReader.sized_ok (RecordReader.ReadRecordSized f buffer len) = true ->
  (sizeof_int + sizeof_size_t + Z.to_nat len <= length (i_unread f))%nat
  /\ (length (i_unread (RecordReader.sized_file
                          (RecordReader.ReadRecordSized f buffer len)))
      + sizeof_int <= length (i_unread f))%nat.
Proof.
  unfold RecordReader.ReadRecordSized.
  pose proof (istream_read_ok f sizeof_int) as H1.
  destruct (istream_read f sizeof_int) as [f1 g1]. cbn [fst snd] in H1.
  destruct (fail (i_state f1)) eqn:F1; [cbn; discriminate|].
  destruct (H1 eq_refl) as (Hg & Hl1 & E1). injection E1 as -> ->.
  assert (Ho : i_is_open f = true).
  { unfold source in Hl1. destruct (i_is_open f); [reflexivity|].
    cbn in Hl1. unfold sizeof_int in Hl1. discriminate. }
  unfold source in Hl1. rewrite Ho in Hl1. rewrite length_take in Hl1.
  cbn [orb]. destruct (negb _); [cbn; discriminate|].
  pose proof (istream_read_ok (i_at f (drop sizeof_int (i_unread f)))
                sizeof_size_t) as H2.
  destruct (istream_read (i_at f (drop sizeof_int (i_unread f))) sizeof_size_t)
    as [f2 g2].
  cbn [fst snd] in H2.
  destruct (fail (i_state f2)) eqn:F2; [cbn; discriminate|].
  destruct (H2 eq_refl) as (_ & Hl2 & E2). injection E2 as -> ->.
  unfold source in Hl2. cbn [i_is_open i_unread i_at] in Hl2.
  rewrite Ho, length_take, length_drop in Hl2.
  cbn [orb]. destruct (negb _); [cbn; discriminate|].
  rewrite i_at_i_at. cbn [i_unread i_at].
  pose proof (istream_read_ok
                (i_at f (drop sizeof_size_t (drop sizeof_int (i_unread f))))
                (Z.to_nat len)) as H3.
  destruct (istream_read
              (i_at f (drop sizeof_size_t (drop sizeof_int (i_unread f))))
              (Z.to_nat len)) as [f3 g3].
  cbn [fst snd] in H3. cbn [RecordReader.sized_ok RecordReader.sized_file].
  intros Hok. apply negb_true_iff in Hok.
  destruct (H3 Hok) as (_ & Hl3 & E3). injection E3 as -> ->.
  unfold source in Hl3. cbn [i_is_open i_unread i_at] in Hl3.
  rewrite Ho, length_take, !length_drop in Hl3.
  cbn [i_unread i_at]. rewrite !length_drop. lia.
Qed.

(** A stream too short to hold a frame of the expected size makes the
    fixed-size reader fail. *)
Lemma ReadRecordSized_too_short f buffer len :
  (length (i_unread f) < sizeof_int + sizeof_size_t + Z.to_nat len)%nat ->
  RecordReader.sized_ok (RecordReader.ReadRecordSized f buffer len) = false.
Proof.
  intros Hshort.
  destruct (RecordReader.sized_ok (RecordReader.ReadRecordSized f buffer len))
    eqn:Hok; [|reflexivity].
  apply ReadRecordSized_ok_consumes in Hok. lia.
Qed.

(** More fuel does not change what the loop of [Read] returns. *)
Lemma Read_loop_more_fuel fuel : forall extra f l res,
  ThumbnailLibrary.Read_loop fuel f l = Some res ->
  ThumbnailLibrary.Read_loop (fuel + extra) f l = Some res.
Proof.
  induction fuel as [|fuel IH]; intros extra f l res Hres; [discriminate|].
  cbn [ThumbnailLibrary.Read_loop Nat.add] in *.
  destruct (RecordReader.sized_ok _); [|exact Hres].
  apply IH, Hres.
Qed.

(** The loop ends: each round that reads a record shortens the stream. *)
Lemma Read_loop_terminates fuel : forall f l,
  (length (i_unread f) < fuel)%nat ->
  is_Some (ThumbnailLibrary.Read_loop fuel f l).
Proof.
  induction fuel as [|fuel IH]; intros f l Hfuel; [lia|].
  cbn [ThumbnailLibrary.Read_loop]. unfold RecordReader.Read.
  destruct (RecordReader.sized_ok (RecordReader.ReadRecordSized f _ _)) eqn:Hok.
  - apply IH. apply ReadRecordSized_ok_consumes in Hok.
    unfold sizeof_int in Hok. lia.
  - eexists. reflexivity.
Qed.

(** The loop on a stream that holds the frames of [lib] and then a tail
    on which the reader fails: the vector gains [lib], and one more
    element that the failing call wrote into. *)
Lemma Read_loop_frames lib : forall fuel f done back tail,
  good (i_state f) = true -> i_is_open f = true ->
  i_unread f = library_file lib ++ tail ->
  Forall Thumbnail_wf lib ->
  Z.of_nat sizeof_Thumbnail < size_t_modulus ->
  (forall buffer,
     RecordReader.sized_ok
       (RecordReader.Read sizeof_Thumbnail (i_at f tail) buffer) = false) ->
  (length lib < fuel)%nat ->
  exists f' last,
    ThumbnailLibrary.Read_loop fuel f (done ++ [back])
    = Some (f', (done ++ lib) ++ [last]).
Proof.
  induction lib as [|t lib IH]; intros fuel f done back tail Hg Ho Hu Hwf Hsize Htail Hfuel.
  - destruct fuel as [|fuel]; [cbn in Hfuel; lia|].
    cbn [ThumbnailLibrary.Read_loop].
    cbn [library_file fmap list_fmap concat app] in Hu.
    rewrite <- Hu, i_at_unread in Htail. rewrite Htail.
    rewrite removelast_last, app_nil_r. eexists _, _. reflexivity.
  - destruct fuel as [|fuel]; [cbn in Hfuel; lia|].
    apply Forall_cons in Hwf as [Ht Hwf].
    cbn [ThumbnailLibrary.Read_loop]. unfold RecordReader.Read.
    unfold library_file in Hu. cbn [fmap list_fmap concat] in Hu.
    rewrite <- app_assoc in Hu. fold (library_file lib) in Hu.
    rewrite <- (length_Thumbnail_bytes t).
    rewrite (ReadRecordSized_frame f _ (Thumbnail_bytes t) (library_file lib ++ tail));
      [| assumption | assumption | exact Hu
       | rewrite length_Thumbnail_bytes; exact Hsize
       | rewrite !length_Thumbnail_bytes; reflexivity].
    cbn [RecordReader.sized_ok RecordReader.sized_file RecordReader.sized_buffer].
    rewrite removelast_last, (Thumbnail_of_bytes_bytes t Ht).
    destruct (IH fuel (i_at f (library_file lib ++ tail)) (done ++ [t])
                Thumbnail_zero tail) as (f' & last & Hloop);
      try assumption; try reflexivity; [cbn in Hfuel; lia|].
    rewrite Hloop. exists f', last.
    rewrite <- !app_assoc. reflexivity.
Qed.

(** [Write] to a good stream without a size limit appends the frames of
    the thumbnails. *)
Lemma Write_unlimited lib : forall output,
  good (o_state output) = true -> sink_room output = None ->
  o_written (ThumbnailLibrary.Write lib output)
  = o_written output ++ library_file lib.
Proof.
  unfold ThumbnailLibrary.Write, RecordWriter.Close, ofstream_close.
  cbn [fst].
  assert (Hclose : forall f, o_written
                     (if filebuf_close (o_is_open f) (o_close_ok f)
                      then Ofstream (o_state f) false (o_written f) (o_room f)
                             (o_close_ok f)
                      else o_setstate only_failbit
                             (Ofstream (o_state f) false (o_written f) (o_room f)
                                (o_close_ok f)))
                   = o_written f).
  { intros f. destruct (filebuf_close _ _); reflexivity. }
  induction lib as [|t lib IH]; intros output Hg Hr; rewrite Hclose in *.
  - cbn. rewrite app_nil_r. reflexivity.
  - cbn [fold_left]. unfold RecordWriter.Write at 2.
    rewrite <- (length_Thumbnail_bytes t).
    fold (RecordWriter.WriteRecord_string output (Thumbnail_bytes t)).
    rewrite WriteRecord_string_unlimited by assumption. cbn [fst].
    assert (Ho : o_is_open output = true).
    { unfold sink_room in Hr. destruct (o_is_open output);
        [reflexivity|discriminate]. }
    specialize (IH (o_append output (frame (Thumbnail_bytes t)) None) Hg
                  (sink_room_o_append output _ None Ho)).
    rewrite Hclose in IH. rewrite (length_Thumbnail_bytes t), IH.
    cbn [o_written o_append]. unfold library_file.
    cbn [fmap list_fmap concat]. rewrite <- app_assoc. reflexivity.
Qed.

End LibraryFacts.

(** X10.  [ThumbnailLibrary::Read] gives back what
    [ThumbnailLibrary::Write] wrote: for thumbnails whose arrays have
    their declared sizes, reading the file written from [thumbnails]
    leaves exactly [thumbnails] in the library, whatever it held before,
    and the stream closed. *)
Theorem library_Write_then_Read `{Platform} (thumbnails before : list Thumbnail) :
  Forall Thumbnail_wf thumbnails ->
  Z.of_nat sizeof_Thumbnail < size_t_modulus ->
  exists input,
    ThumbnailLibrary.Read before
      (open_ifstream (o_written (ThumbnailLibrary.Write thumbnails fresh_ofstream)))
    = Some (input, thumbnails)
    /\ i_is_open input = false.
Proof.
  intros Hwf Hsize.
  rewrite Write_unlimited by reflexivity.
  cbn [o_written fresh_ofstream app].
  unfold ThumbnailLibrary.Read. cbn [app].
  destruct (Read_loop_frames thumbnails
              (S (length (i_unread (open_ifstream (library_file thumbnails)))))
              (open_ifstream (library_file thumbnails)) [] Thumbnail_zero [])
    as (f' & last & Hloop); try assumption; try reflexivity.
  - cbn [i_unread open_ifstream]. rewrite app_nil_r. reflexivity.
  - cbn [i_unread open_ifstream]. unfold library_file.
    induction thumbnails as [|t ts IH]; [cbn; lia|].
    apply Forall_cons in Hwf as [_ Hwf]. specialize (IH Hwf).
    cbn [fmap list_fmap concat length]. rewrite length_app, length_frame.
    unfold sizeof_int. lia.
  - cbn [app] in Hloop. rewrite Hloop, removelast_last.
    eexists. split; [reflexivity|].
    unfold RecordReader.Close, ifstream_close. cbn [fst].
    destruct (filebuf_close _ _); reflexivity.
Qed.

Lemma library_Write_then_Read_witness :
  exists input,
    @ThumbnailLibrary.Read lp64_le []
      (open_ifstream
         (o_written
            (@ThumbnailLibrary.Write lp64_le
               [ {| filename := resize 256 Byte.x00 [Byte.x61];
                    pixels := replicate 900 Byte.x10 |} ]
               fresh_ofstream)))
    = Some (input,
            [ {| filename := resize 256 Byte.x00 [Byte.x61];
                 pixels := replicate 900 Byte.x10 |} ])
    /\ i_is_open input = false.
Proof.
  apply (@library_Write_then_Read lp64_le
           [ {| filename := resize 256 Byte.x00 [Byte.x61];
                pixels := replicate 900 Byte.x10 |} ] []
           ltac:(repeat constructor) ltac:(reflexivity)).
Defined.

(** X11.  A library file that ends in the middle of a record (or has any
    tail shorter than one record's frame) reads as the complete records
    before it: [Read] drops the partial record, although the failing call
    had already written into the vector's last element. *)
Theorem library_Read_drops_partial_record `{Platform}
    (thumbnails before : list Thumbnail) (tail : list byte) :
  Forall Thumbnail_wf thumbnails ->
  Z.of_nat sizeof_Thumbnail < size_t_modulus ->
  (length tail < sizeof_int + sizeof_size_t + sizeof_Thumbnail)%nat ->
  exists input,
    ThumbnailLibrary.Read before (open_ifstream (library_file thumbnails ++ tail))
    = Some (input, thumbnails).
Proof.
  intros Hwf Hsize Htail.
  unfold ThumbnailLibrary.Read. cbn [app].
  destruct (Read_loop_frames thumbnails
              (S (length (i_unread (open_ifstream (library_file thumbnails ++ tail)))))
              (open_ifstream (library_file thumbnails ++ tail)) []
              Thumbnail_zero tail)
    as (f' & last & Hloop); try assumption; try reflexivity.
  - intros buffer. apply ReadRecordSized_too_short.
    cbn [i_unread i_at]. rewrite Nat2Z.id. exact Htail.
  - cbn [i_unread open_ifstream]. rewrite length_app.
    assert (Hlen : (length thumbnails <= length (library_file thumbnails))%nat).
    { unfold library_file. clear Hwf.
      induction thumbnails as [|t ts IH]; [cbn; lia|].
      cbn [fmap list_fmap concat length]. rewrite length_app, length_frame.
      unfold sizeof_int. lia. }
    lia.
  - cbn [app] in Hloop. rewrite Hloop, removelast_last.
    eexists. reflexivity.
Qed.

Lemma library_Read_drops_partial_record_witness :
  exists input,
    @ThumbnailLibrary.Read lp64_le []
      (open_ifstream
         (@library_file lp64_le
            [ {| filename := resize 256 Byte.x00 [Byte.x61];
                 pixels := replicate 900 Byte.x10 |} ]
          ++ @magic_bytes lp64_le ++ @size_bytes lp64_le 1156 ++ [Byte.x62]))
    = Some (input,
            [ {| filename := resize 256 Byte.x00 [Byte.x61];
                 pixels := replicate 900 Byte.x10 |} ]).
Proof.
  apply (@library_Read_drops_partial_record lp64_le
           [ {| filename := resize 256 Byte.x00 [Byte.x61];
                pixels := replicate 900 Byte.x10 |} ] []
           (@magic_bytes lp64_le ++ @size_bytes lp64_le 1156 ++ [Byte.x62])
           ltac:(repeat constructor) ltac:(reflexivity)
           ltac:(vm_compute; lia)).
Defined.

(** X12.  [ThumbnailLibrary::Read] always comes to an end, on any stream
    and from any earlier contents, and more rounds than the model allows
    would not change its loop's result.  On a stream that is not good
    (the file did not open) or too short for one record, the library ends
    up empty: what it held before is gone. *)
Theorem library_Read_terminates `{Platform} (before : list Thumbnail) input :
  is_Some (ThumbnailLibrary.Read before input)
  /\ (forall extra,
        ThumbnailLibrary.Read_loop (S (length (i_unread input)) + extra) input
          [Thumbnail_zero]
        = ThumbnailLibrary.Read_loop (S (length (i_unread input))) input
            [Thumbnail_zero])
  /\ (good (i_state input) = false
      \/ (length (i_unread input)
          < sizeof_int + sizeof_size_t + sizeof_Thumbnail)%nat ->
      snd <$> ThumbnailLibrary.Read before input = Some []).
Proof.
  pose proof (Read_loop_terminates (S (length (i_unread input))) input
                [Thumbnail_zero] ltac:(lia)) as [res Hres].
  split; [|split].
  - unfold ThumbnailLibrary.Read. cbn [app]. rewrite Hres.
    destruct res as [f l]. eexists. reflexivity.
  - intros extra. rewrite Hres. apply Read_loop_more_fuel, Hres.
  - intros Hbad. unfold ThumbnailLibrary.Read. cbn [app].
    cbn [ThumbnailLibrary.Read_loop]. unfold RecordReader.Read.
    assert (Hfail : RecordReader.sized_ok
                      (RecordReader.ReadRecordSized input
                         (Thumbnail_bytes (List.last [Thumbnail_zero] Thumbnail_zero))
                         (Z.of_nat sizeof_Thumbnail)) = false).
    { destruct Hbad as [Hg|Hshort].
      - rewrite ReadRecordSized_not_good by exact Hg. reflexivity.
      - apply ReadRecordSized_too_short. rewrite Nat2Z.id. exact Hshort. }
    rewrite Hfail. reflexivity.
Qed.

Lemma library_Read_terminates_witness :
  snd <$> @ThumbnailLibrary.Read lp64_le
            [ {| filename := []; pixels := [] |} ]
            (Ifstream only_failbit false [] true)
  = Some [].
Proof.
  apply (proj2 (proj2 (@library_Read_terminates lp64_le
                         [ {| filename := []; pixels := [] |} ]
                         (Ifstream only_failbit false [] true)))
           ltac:(left; reflexivity)).
Defined.

(** ** The thumbnail library: the closest thumbnail *)

Lemma wrap_int_small z : - 2147483648 <= z < 2147483648 -> wrap_int z = z.
Proof.
  intros Hz. unfold wrap_int, to_signed.
  change (2 ^ (8 * Z.of_nat sizeof_int - 1)) with 2147483648.
  change (2 ^ (8 * Z.of_nat sizeof_int)) with 4294967296.
  destruct (Z_lt_le_dec z 0) as [Hneg|Hpos].
  - replace (z mod 4294967296) with (z + 4294967296).
    + destruct (Z.ltb_spec (z + 4294967296) 2147483648); lia.
    + symmetry. rewrite <- (Z.mod_add z 1 4294967296) by lia.
      apply Z.mod_small. lia.
  - rewrite Z.mod_small by lia.
    destruct (Z.ltb_spec z 2147483648); lia.
Qed.

Lemma at_index_range a i : 0 <= at_index a i <= 255.
Proof. unfold at_index. pose proof (Z_of_byte_range (default Byte.x00 (a !! i))). lia. Qed.

Lemma squared_difference_range a b i :
  0 <= (at_index a i - at_index b i) ^ 2 <= 65025.
Proof.
  pose proof (at_index_range a i). pose proof (at_index_range b i).
  rewrite Z.pow_2_r. set (d := at_index a i - at_index b i).
  assert (Hd : -255 <= d <= 255) by (subst d; lia).
  pose proof (Z.square_nonneg d) as Hsq.
  assert (Hprod : 0 <= (255 - d) * (255 + d))
    by (apply Z.mul_nonneg_nonneg; lia).
  split; [exact Hsq|]. lia.
Qed.

(** The [int] accumulation over any list of indices stays exact as long
    as the largest possible sum fits an [int]. *)
Lemma pixel_diff_loop_exact a b (l : list nat) : forall acc,
  0 <= acc -> acc + 65025 * Z.of_nat (length l) < 2147483648 ->
  fold_left
    (fun diff i =>
       wrap_int (diff
                 + wrap_int (wrap_int (at_index a i - at_index b i)
                             * wrap_int (at_index a i - at_index b i))))
    l acc
  = acc + fold_right (fun i s => (at_index a i - at_index b i) ^ 2 + s) 0 l
  /\ 0 <= fold_right (fun i s => (at_index a i - at_index b i) ^ 2 + s) 0 l
       <= 65025 * Z.of_nat (length l).
Proof.
  induction l as [|i l IH]; intros acc Hacc Hbound.
  - cbn. lia.
  - cbn [fold_left fold_right length] in *.
    pose proof (at_index_range a i) as Ha. pose proof (at_index_range b i) as Hb.
    pose proof (squared_difference_range a b i) as Hsq.
    rewrite Z.pow_2_r in *.
    rewrite (wrap_int_small (at_index a i - at_index b i)) by lia.
    rewrite (wrap_int_small (_ * _)) by lia.
    rewrite wrap_int_small by lia.
    destruct (IH (acc + (at_index a i - at_index b i) * (at_index a i - at_index b i)))
      as [Hfold Hrange]; [lia | lia |].
    rewrite Nat2Z.inj_succ. rewrite Hfold. split; lia.
Qed.

Lemma pixel_diff_exact a b :
  ThumbnailLibrary.pixel_diff a b = squared_distance a b
  /\ 0 <= squared_distance a b <= 58522500.
Proof.
  unfold ThumbnailLibrary.pixel_diff, squared_distance.
  destruct (pixel_diff_loop_exact a b (seq 0 (3 * 20 * 15)) 0) as [Hfold Hrange].
  - lia.
  - rewrite length_seq. reflexivity.
  - rewrite length_seq in Hrange. rewrite Hfold.
    change (65025 * Z.of_nat (3 * 20 * 15)) with 58522500 in Hrange. lia.
Qed.

(** The outer loop of [FindClosest] over the pixel arrays [ps]: it ends
    with no position only for an empty list, and otherwise with the first
    position of least difference and that difference. *)
Lemma FindClosest_loop q (ps : list (list byte)) :
  let st := fold_left (ThumbnailLibrary.FindClosest_step q)
              (zip (seq 0 (length ps)) ps) (None, INT_MAX) in
  match fst st with
  | None => ps = [] /\ snd st = INT_MAX
  | Some i =>
      exists p, ps !! i = Some p
        /\ snd st = ThumbnailLibrary.pixel_diff q p
        /\ forall j p', ps !! j = Some p' ->
             ThumbnailLibrary.pixel_diff q p <= ThumbnailLibrary.pixel_diff q p'
             /\ ((j < i)%nat ->
                 ThumbnailLibrary.pixel_diff q p < ThumbnailLibrary.pixel_diff q p')
  end.
Proof.
  induction ps as [|x ps IH] using rev_ind; [cbn; split; reflexivity|].
  rewrite length_app. cbn [length]. rewrite Nat.add_1_r, seq_S.
  rewrite zip_with_app by apply length_seq.
  rewrite fold_left_app. cbn [zip_with fold_left Nat.add].
  cbn zeta in IH.
  destruct (fold_left (ThumbnailLibrary.FindClosest_step q)
              (zip (seq 0 (length ps)) ps) (None, INT_MAX)) as [best best_diff].
  cbn [fst snd] in IH. unfold ThumbnailLibrary.FindClosest_step.
  pose proof (pixel_diff_exact q x) as [Hx Hxr].
  destruct best as [i|].
  - destruct IH as (p & Hp & -> & Hmin).
    pose proof (lookup_lt_Some _ _ _ Hp) as Hi.
    destruct (Z.ltb_spec (ThumbnailLibrary.pixel_diff q x)
                (ThumbnailLibrary.pixel_diff q p)) as [Hlt|Hge]; cbn [fst snd].
    + exists x. split; [apply list_lookup_middle; reflexivity|].
      split; [reflexivity|]. intros j p' Hj.
      apply lookup_snoc_Some in Hj as [[Hjl Hj]|[-> <-]].
      * destruct (Hmin j p' Hj) as [Hle _]. split; [lia|]. intros _. lia.
      * split; [lia|]. intros Hcontra. lia.
    + exists p. split; [rewrite lookup_app_l by exact Hi; exact Hp|].
      split; [reflexivity|]. intros j p' Hj.
      apply lookup_snoc_Some in Hj as [[Hjl Hj]|[-> <-]].
      * apply Hmin, Hj.
      * split; [lia|]. intros Hcontra. lia.
  - destruct IH as [-> ->]. unfold INT_MAX.
    destruct (Z.ltb_spec (ThumbnailLibrary.pixel_diff q x) 2147483647) as [_|Hge];
      [|lia].
    cbn [fst snd length]. exists x. split; [reflexivity|].
    split; [reflexivity|]. intros j p' Hj.
    apply lookup_snoc_Some in Hj as [[Hjl _]|[-> <-]]; [cbn in Hjl; lia|].
    split; [lia|]. cbn. lia.
Qed.

Lemma FindClosest_unfold (thumbnails_ : list Thumbnail) q :
  ThumbnailLibrary.FindClosest thumbnails_ q
  = fst (fold_left (ThumbnailLibrary.FindClosest_step q)
           (zip (seq 0 (length (pixels <$> thumbnails_))) (pixels <$> thumbnails_))
           (None, INT_MAX)).
Proof.
  unfold ThumbnailLibrary.FindClosest. rewrite length_fmap. reflexivity.
Qed.

(** The squared distance is zero only between arrays that agree at all
    [3 * 20 * 15] positions. *)
Lemma squared_distance_zero a b :
  length a = (3 * 20 * 15)%nat -> length b = (3 * 20 * 15)%nat ->
  squared_distance a b = 0 -> a = b.
Proof.
  intros Ha Hb Hzero. unfold squared_distance in Hzero.
  assert (Hall : forall l : list nat,
            fold_right (fun i acc => (at_index a i - at_index b i) ^ 2 + acc) 0 l = 0 ->
            forall i, In i l -> at_index a i = at_index b i).
  { induction l as [|k l IH]; intros Hsum i Hin; [destruct Hin|].
    cbn [fold_right] in Hsum.
    pose proof (squared_difference_range a b k) as Hk.
    assert (Hrest : 0 <= fold_right
                          (fun i acc => (at_index a i - at_index b i) ^ 2 + acc) 0 l).
    { clear. induction l as [|k l IH]; cbn [fold_right]; [lia|].
      pose proof (squared_difference_range a b k). lia. }
    destruct Hin as [->|Hin].
    - assert (Hsq : (at_index a i - at_index b i) ^ 2 = 0) by lia.
      rewrite Z.pow_2_r in Hsq. nia.
    - apply IH; [lia | exact Hin]. }
  specialize (Hall _ Hzero).
  apply list_eq. intros i.
  destruct (Nat.lt_ge_cases i (3 * 20 * 15)) as [Hlt|Hge].
  - specialize (Hall i ltac:(apply in_seq; lia)).
    destruct (lookup_lt_is_Some_2 a i ltac:(lia)) as [x Hx].
    destruct (lookup_lt_is_Some_2 b i ltac:(lia)) as [y Hy].
    unfold at_index in Hall. rewrite Hx, Hy in *. cbn [default] in Hall.
    unfold id in Hall.
    apply (f_equal byte_of_Z) in Hall. rewrite !byte_of_Z_of_byte in Hall.
    congruence.
  - rewrite !lookup_ge_None_2 by lia. reflexivity.
Qed.

Lemma squared_distance_self a : squared_distance a a = 0.
Proof.
  unfold squared_distance. induction (seq 0 (3 * 20 * 15)) as [|i l IH];
    [reflexivity|].
  cbn [fold_right]. rewrite IH, Z.sub_diag. reflexivity.
Qed.

(** X13.  The pixel difference computed in [int] arithmetic by
    [FindClosest] never overflows: for any two arrays it is the exact sum
    of the [3 * 20 * 15] squared differences, between 0 and 58522500,
    hence below the initial [best_diff] of [INT_MAX]. *)
Theorem pixel_diff_never_overflows (pixels_ thumbnail_pixels : list byte) :
  ThumbnailLibrary.pixel_diff pixels_ thumbnail_pixels
  = squared_distance pixels_ thumbnail_pixels
  /\ 0 <= ThumbnailLibrary.pixel_diff pixels_ thumbnail_pixels <= 58522500
  /\ ThumbnailLibrary.pixel_diff pixels_ thumbnail_pixels < INT_MAX.
Proof.
  destruct (pixel_diff_exact pixels_ thumbnail_pixels) as [Heq Hrange].
  rewrite Heq. unfold INT_MAX. repeat split; lia.
Qed.

(** X14.  [FindClosest] returns the null pointer exactly when the library
    is empty; with at least one thumbnail it always returns one of them. *)
Theorem FindClosest_null_iff_empty (thumbnails_ : list Thumbnail) (pixels_ : list byte) :
  (ThumbnailLibrary.FindClosest thumbnails_ pixels_ = None <-> thumbnails_ = [])
  /\ (forall i, ThumbnailLibrary.FindClosest thumbnails_ pixels_ = Some i ->
        (i < length thumbnails_)%nat).
Proof.
  rewrite FindClosest_unfold.
  pose proof (FindClosest_loop pixels_ (pixels <$> thumbnails_)) as Hloop.
  cbn zeta in Hloop.
  destruct (fst (fold_left _ _ _)) as [i|].
  - destruct Hloop as (p & Hp & _). split.
    + split; [discriminate|]. intros ->. discriminate.
    + intros i' [= <-]. apply lookup_lt_Some in Hp.
      rewrite length_fmap in Hp. exact Hp.
  - destruct Hloop as [Hnil _]. split.
    + split; [|reflexivity]. intros _.
      destruct thumbnails_; [reflexivity|discriminate].
    + discriminate.
Qed.

(** X15.  The thumbnail that [FindClosest] returns has the least squared
    distance to the given pixels of all thumbnails in the library, and
    among equally close ones it is the first: every thumbnail stored
    before it is strictly farther away. *)
Theorem FindClosest_is_first_minimum (thumbnails_ : list Thumbnail)
    (pixels_ : list byte) (i : nat) :
  ThumbnailLibrary.FindClosest thumbnails_ pixels_ = Some i ->
  exists best,
    thumbnails_ !! i = Some best
    /\ forall j other, thumbnails_ !! j = Some other ->
         squared_distance pixels_ (pixels best)
         <= squared_distance pixels_ (pixels other)
         /\ ((j < i)%nat ->
             squared_distance pixels_ (pixels best)
             < squared_distance pixels_ (pixels other)).
Proof.
  rewrite FindClosest_unfold.
  pose proof (FindClosest_loop pixels_ (pixels <$> thumbnails_)) as Hloop.
  cbn zeta in Hloop.
  destruct (fst (fold_left _ _ _)) as [i'|]; [|discriminate].
  intros [= ->]. destruct Hloop as (p & Hp & _ & Hmin).
  rewrite list_lookup_fmap in Hp.
  destruct (thumbnails_ !! i) as [best|] eqn:Hbest; [|discriminate].
  injection Hp as <-. exists best. split; [reflexivity|].
  intros j other Hother.
  specialize (Hmin j (pixels other)).
  rewrite list_lookup_fmap, Hother in Hmin. specialize (Hmin eq_refl).
  rewrite !(proj1 (pixel_diff_exact _ _)) in Hmin. exact Hmin.
Qed.

Lemma FindClosest_is_first_minimum_witness :
  exists best,
    [ {| filename := []; pixels := replicate 900 Byte.x10 |};
      {| filename := []; pixels := replicate 900 Byte.x20 |};
      {| filename := []; pixels := replicate 900 Byte.x10 |} ] !! 0%nat
    = Some best
    /\ forall j other,
         [ {| filename := []; pixels := replicate 900 Byte.x10 |};
           {| filename := []; pixels := replicate 900 Byte.x20 |};
           {| filename := []; pixels := replicate 900 Byte.x10 |} ] !! j
         = Some other ->
         squared_distance (replicate 900 Byte.x18) (pixels best)
         <= squared_distance (replicate 900 Byte.x18) (pixels other)
         /\ ((j < 0)%nat ->
             squared_distance (replicate 900 Byte.x18) (pixels best)
             < squared_distance (replicate 900 Byte.x18) (pixels other)).
Proof.
  apply (FindClosest_is_first_minimum
           [ {| filename := []; pixels := replicate 900 Byte.x10 |};
             {| filename := []; pixels := replicate 900 Byte.x20 |};
             {| filename := []; pixels := replicate 900 Byte.x10 |} ]
           (replicate 900 Byte.x18) 0 ltac:(vm_compute; reflexivity)).
Defined.

(** X16.  When the given pixels are exactly those of some thumbnail in
    the library, [FindClosest] returns a thumbnail with exactly these
    pixels: the first such one. *)
Theorem FindClosest_finds_exact_match (thumbnails_ : list Thumbnail)
    (pixels_ : list byte) (j : nat) (same : Thumbnail) :
  Forall Thumbnail_wf thumbnails_ ->
  thumbnails_ !! j = Some same -> pixels same = pixels_ ->
  exists i best,
    ThumbnailLibrary.FindClosest thumbnails_ pixels_ = Some i
    /\ thumbnails_ !! i = Some best
    /\ pixels best = pixels_
    /\ (i <= j)%nat
    /\ forall k other, (k < i)%nat -> thumbnails_ !! k = Some other ->
         pixels other <> pixels_.
Proof.
  intros Hwf Hsame Hpix.
  rewrite FindClosest_unfold.
  pose proof (FindClosest_loop pixels_ (pixels <$> thumbnails_)) as Hloop.
  cbn zeta in Hloop.
  destruct (fst (fold_left _ _ _)) as [i|].
  2: { destruct Hloop as [Hnil _]. destruct thumbnails_; discriminate. }
  destruct Hloop as (p & Hp & _ & Hmin).
  rewrite list_lookup_fmap in Hp.
  destruct (thumbnails_ !! i) as [best|] eqn:Hbest; [|discriminate].
  injection Hp as <-.
  assert (Hdist : forall k other, thumbnails_ !! k = Some other ->
            squared_distance pixels_ (pixels best)
            <= squared_distance pixels_ (pixels other)
            /\ ((k < i)%nat ->
                squared_distance pixels_ (pixels best)
                < squared_distance pixels_ (pixels other))).
  { intros k other Hother. specialize (Hmin k (pixels other)).
    rewrite list_lookup_fmap, Hother in Hmin. specialize (Hmin eq_refl).
    rewrite !(proj1 (pixel_diff_exact _ _)) in Hmin. exact Hmin. }
  pose proof (proj2 (pixel_diff_exact pixels_ (pixels best))) as Hnonneg.
  assert (Hzero : squared_distance pixels_ (pixels best) = 0).
  { destruct (Hdist j same Hsame) as [Hle _].
    rewrite Hpix, squared_distance_self in Hle. lia. }
  assert (Hlen : forall k t, thumbnails_ !! k = Some t ->
            length (pixels t) = (3 * 20 * 15)%nat).
  { intros k t Ht. apply (Forall_lookup_1 _ _ _ _ Hwf Ht). }
  assert (Hq : length pixels_ = (3 * 20 * 15)%nat).
  { rewrite <- Hpix. apply (Hlen j same Hsame). }
  exists i, best. split; [reflexivity|]. split; [exact Hbest|].
  split; [symmetry; apply squared_distance_zero;
            [exact Hq | apply (Hlen i best Hbest) | exact Hzero]|].
  split.
  - destruct (Nat.le_gt_cases i j) as [Hle|Hgt]; [exact Hle|].
    destruct (Hdist j same Hsame) as [_ Hlt]. specialize (Hlt Hgt).
    rewrite Hpix, squared_distance_self in Hlt. lia.
  - intros k other Hk Hother Heq.
    destruct (Hdist k other Hother) as [_ Hlt]. specialize (Hlt Hk).
    rewrite Heq, squared_distance_self in Hlt. lia.
Qed.

Lemma FindClosest_finds_exact_match_witness :
  exists i best,
    ThumbnailLibrary.FindClosest
      [ {| filename := replicate 256 Byte.x00; pixels := replicate 900 Byte.x10 |};
        {| filename := replicate 256 Byte.x00; pixels := replicate 900 Byte.x20 |} ]
      (replicate 900 Byte.x20) = Some i
    /\ [ {| filename := replicate 256 Byte.x00; pixels := replicate 900 Byte.x10 |};
         {| filename := replicate 256 Byte.x00; pixels := replicate 900 Byte.x20 |} ]
       !! i = Some best
    /\ pixels best = replicate 900 Byte.x20
    /\ (i <= 1)%nat
    /\ forall k other, (k < i)%nat ->
         [ {| filename := replicate 256 Byte.x00; pixels := replicate 900 Byte.x10 |};
           {| filename := replicate 256 Byte.x00; pixels := replicate 900 Byte.x20 |} ]
         !! k = Some other ->
         pixels other <> replicate 900 Byte.x20.
Proof.
  apply (FindClosest_finds_exact_match
           [ {| filename := replicate 256 Byte.x00; pixels := replicate 900 Byte.x10 |};
             {| filename := replicate 256 Byte.x00; pixels := replicate 900 Byte.x20 |} ]
           (replicate 900 Byte.x20) 1
           {| filename := replicate 256 Byte.x00; pixels := replicate 900 Byte.x20 |}
           ltac:(repeat constructor) ltac:(reflexivity) ltac:(reflexivity)).
Defined.

Lemma FindClosest_null_iff_empty_witness :
  (0 < length [Thumbnail_zero; Thumbnail_zero; Thumbnail_zero])%nat.
Proof.
  apply (proj2 (FindClosest_null_iff_empty
                  [Thumbnail_zero; Thumbnail_zero; Thumbnail_zero]
                  (replicate 900 Byte.x01)) 0%nat ltac:(vm_compute; reflexivity)).
Defined.

(** ** The thumbnail library on a device that fills up *)

Section FullDevice.
Context `{Platform}.

Lemma WriteRecord_room_state f buffer len r :
  good (o_state f) = true -> sink_room f = Some r ->
  if (sizeof_int + sizeof_size_t + Z.to_nat len <=? r)%nat
  then good (o_state (fst (RecordWriter.WriteRecord f buffer len))) = true
       /\ sink_room (fst (RecordWriter.WriteRecord f buffer len))
          = Some (r - (sizeof_int + sizeof_size_t + Z.to_nat len))%nat
  else fail (o_state (fst (RecordWriter.WriteRecord f buffer len))) = true.
Proof.
  intros Hg Hr.
  destruct (Nat.leb_spec (sizeof_int + sizeof_size_t + Z.to_nat len) r) as [Hle|Hlt].
  - unfold RecordWriter.WriteRecord. cbn [fst].
    pose proof (ostream_write_room f
                  (encode_uint byte_order sizeof_int RecordWriter.kMagicNumber)
                  sizeof_int r Hg Hr) as [_ S1].
    rewrite (proj2 (Nat.leb_le _ _)) in S1 by lia. destruct S1 as [G1 R1].
    pose proof (ostream_write_room _
                  (encode_uint byte_order sizeof_size_t len)
                  sizeof_size_t _ G1 R1) as [_ S2].
    rewrite (proj2 (Nat.leb_le _ _)) in S2 by lia. destruct S2 as [G2 R2].
    pose proof (ostream_write_room _ buffer (Z.to_nat len) _ G2 R2) as [_ S3].
    rewrite (proj2 (Nat.leb_le _ _)) in S3 by lia. destruct S3 as [G3 R3].
    split; [exact G3|]. rewrite R3. f_equal. lia.
  - pose proof (WriteRecord_room f buffer len r Hg Hr) as [_ Hs].
    rewrite (proj2 (Nat.leb_gt _ _)) in Hs by lia.
    unfold RecordWriter.WriteRecord in *. cbn [fst snd] in *.
    apply negb_false_iff in Hs. exact Hs.
Qed.

Lemma o_written_Close f : o_written (fst (RecordWriter.Close f)) = o_written f.
Proof.
  unfold RecordWriter.Close, ofstream_close. cbn [fst].
  destruct (filebuf_close _ _); reflexivity.
Qed.

Lemma library_fold_failed lib : forall output,
  fail (o_state output) = true ->
  o_written
    (fold_left
       (fun output thumbnail =>
          fst (RecordWriter.Write sizeof_Thumbnail output (Thumbnail_bytes thumbnail)))
       lib output)
  = o_written output.
Proof.
  induction lib as [|t lib IH]; intros output Hf; [reflexivity|].
  cbn [fold_left]. unfold RecordWriter.Write at 2.
  destruct (WriteRecord_failed output (Thumbnail_bytes t)
              (Z.of_nat sizeof_Thumbnail) Hf) as (F1 & W1 & _).
  rewrite IH by exact F1. exact W1.
Qed.

(** [Write] on a good stream whose device takes [r] more characters: the
    file receives the first [r] characters of the library file. *)
Lemma library_Write_room lib : forall output r,
  good (o_state output) = true -> sink_room output = Some r ->
  o_written (ThumbnailLibrary.Write lib output)
  = o_written output ++ take r (library_file lib).
Proof.
  unfold ThumbnailLibrary.Write.
  induction lib as [|t lib IH]; intros output r Hg Hr; rewrite o_written_Close in *.
  - cbn. rewrite take_nil, app_nil_r. reflexivity.
  - cbn [fold_left]. unfold RecordWriter.Write at 2.
    pose proof (WriteRecord_room output (Thumbnail_bytes t)
                  (Z.of_nat sizeof_Thumbnail) r Hg Hr) as [W1 _].
    pose proof (WriteRecord_room_state output (Thumbnail_bytes t)
                  (Z.of_nat sizeof_Thumbnail) r Hg Hr) as S1.
    rewrite Nat2Z.id in W1, S1.
    rewrite (take_ge (Thumbnail_bytes t)) in W1
      by (rewrite length_Thumbnail_bytes; reflexivity).
    assert (Hframe : magic_bytes ++ size_bytes (Z.of_nat sizeof_Thumbnail)
                     ++ Thumbnail_bytes t = frame (Thumbnail_bytes t)).
    { unfold frame. rewrite length_Thumbnail_bytes. reflexivity. }
    rewrite Hframe in W1.
    unfold library_file. cbn [fmap list_fmap concat].
    fold (library_file lib). rewrite take_app, length_frame, length_Thumbnail_bytes.
    destruct (Nat.leb_spec (sizeof_int + sizeof_size_t + sizeof_Thumbnail) r)
      as [Hle|Hlt].
    + destruct S1 as [G1 R1]. specialize (IH _ _ G1 R1).
      rewrite o_written_Close in IH. rewrite IH, W1.
      rewrite (take_ge (frame _)) by (rewrite length_frame, length_Thumbnail_bytes; lia).
      rewrite <- app_assoc. reflexivity.
    + rewrite library_fold_failed by exact S1. rewrite W1.
      replace (r - (sizeof_int + sizeof_size_t + sizeof_Thumbnail))%nat with O by lia.
      rewrite take_0, app_nil_r. reflexivity.
Qed.

(** The first [r] characters of a library file are the frames of the
    first [r / record_size] thumbnails and less than one more frame. *)
Lemma take_library_file lib : forall r,
  exists tail,
    take r (library_file lib)
    = library_file (take (r / record_size) lib) ++ tail
    /\ (length tail < record_size)%nat.
Proof.
  assert (Hpos : (0 < record_size)%nat)
    by (unfold record_size, sizeof_int; lia).
  induction lib as [|t lib IH]; intros r.
  - exists []. rewrite take_nil. unfold library_file. cbn [fmap list_fmap concat].
    rewrite take_nil. split; [reflexivity | exact Hpos].
  - unfold library_file. cbn [fmap list_fmap concat]. fold (library_file lib).
    assert (Hlen : length (frame (Thumbnail_bytes t)) = record_size).
    { rewrite length_frame, length_Thumbnail_bytes. reflexivity. }
    destruct (Nat.lt_ge_cases r record_size) as [Hlt|Hge].
    + rewrite Nat.div_small by exact Hlt. cbn [take].
      exists (take r (frame (Thumbnail_bytes t) ++ library_file lib)).
      split; [reflexivity|]. rewrite length_take. lia.
    + assert (Hdiv : (r / record_size
                      = S ((r - record_size) / record_size))%nat).
      { rewrite <- Nat.add_1_r, <- Nat.div_add by lia.
        f_equal. lia. }
      rewrite Hdiv. cbn [take].
      destruct (IH (r - record_size)%nat) as (tail & Htake & Htail).
      exists tail. split; [|exact Htail].
      rewrite take_app, Hlen, take_ge by lia. rewrite Htake.
      cbn [fmap list_fmap concat].
      fold (library_file (take ((r - record_size) / record_size) lib)).
      rewrite <- app_assoc. reflexivity.
Qed.

(** [Read] on a file made of whole records and a tail shorter than one
    record. *)
Lemma library_Read_with_short_tail (thumbnails before : list Thumbnail) tail :
  Forall Thumbnail_wf thumbnails ->
  Z.of_nat sizeof_Thumbnail < size_t_modulus ->
  (length tail < record_size)%nat ->
  exists input,
    ThumbnailLibrary.Read before (open_ifstream (library_file thumbnails ++ tail))
    = Some (input, thumbnails).
Proof.
  intros Hwf Hsize Htail.
  unfold ThumbnailLibrary.Read. cbn [app].
  destruct (Read_loop_frames thumbnails
              (S (length (i_unread (open_ifstream (library_file thumbnails ++ tail)))))
              (open_ifstream (library_file thumbnails ++ tail)) []
              Thumbnail_zero tail)
    as (f' & last & Hloop); try assumption; try reflexivity.
  - intros buffer. apply ReadRecordSized_too_short.
    cbn [i_unread i_at]. rewrite Nat2Z.id. exact Htail.
  - cbn [i_unread open_ifstream]. rewrite length_app.
    assert (Hlen : (length thumbnails <= length (library_file thumbnails))%nat).
    { unfold library_file. clear Hwf.
      induction thumbnails as [|t ts IH]; [cbn; lia|].
      cbn [fmap list_fmap concat length]. rewrite length_app, length_frame.
      unfold sizeof_int. lia. }
    lia.
  - cbn [app] in Hloop. rewrite Hloop, removelast_last.
    eexists. reflexivity.
Qed.

End FullDevice.

(** X17.  [ThumbnailLibrary::Write] does not report a device that fills
    up.  Written to a new file on a device with room for [room]
    characters, a library reads back as its first [room / record_size]
    thumbnails, where [record_size] is the length of one record's frame;
    the records that did not fit whole are lost without a sign. *)
Theorem library_on_full_device_reads_as_prefix `{Platform}
    (thumbnails before : list Thumbnail) (room : nat) :
  Forall Thumbnail_wf thumbnails ->
  Z.of_nat sizeof_Thumbnail < size_t_modulus ->
  exists input,
    ThumbnailLibrary.Read before
      (open_ifstream
         (o_written
            (ThumbnailLibrary.Write thumbnails
               (Ofstream goodbit true [] (Some room) true))))
    = Some (input,
            take (room / (sizeof_int + sizeof_size_t + sizeof_Thumbnail)) thumbnails).
Proof.
  intros Hwf Hsize.
  rewrite (library_Write_room thumbnails _ room) by reflexivity.
  cbn [o_written app].
  destruct (take_library_file thumbnails room) as (tail & -> & Htail).
  apply library_Read_with_short_tail; [|exact Hsize|exact Htail].
  apply Forall_take, Hwf.
Qed.

Lemma library_on_full_device_reads_as_prefix_witness :
  exists input,
    @ThumbnailLibrary.Read lp64_le []
      (open_ifstream
         (o_written
            (@ThumbnailLibrary.Write lp64_le
               [ {| filename := resize 256 Byte.x00 [Byte.x61];
                    pixels := replicate 900 Byte.x10 |};
                 {| filename := resize 256 Byte.x00 [Byte.x62];
                    pixels := replicate 900 Byte.x20 |} ]
               (Ofstream goodbit true [] (Some 2000%nat) true))))
    = Some (input,
            take (2000 / (sizeof_int + @sizeof_size_t lp64_le + sizeof_Thumbnail))
              [ {| filename := resize 256 Byte.x00 [Byte.x61];
                   pixels := replicate 900 Byte.x10 |};
                {| filename := resize 256 Byte.x00 [Byte.x62];
                   pixels := replicate 900 Byte.x20 |} ]).
Proof.
  apply (@library_on_full_device_reads_as_prefix lp64_le
           [ {| filename := resize 256 Byte.x00 [Byte.x61];
                pixels := replicate 900 Byte.x10 |};
             {| filename := resize 256 Byte.x00 [Byte.x62];
                pixels := replicate 900 Byte.x20 |} ] [] 2000
           ltac:(repeat constructor) ltac:(reflexivity)).
Defined.

(** ** The mosaic *)

Section MosaicFacts.
Context `{Platform}.

Lemma copy_pixel_fill data r c y x (done rest : list byte) :
  length done = (3 * (20 * y + x))%nat -> (3 <= length rest)%nat ->
  Mosaic.copy_pixel data r c y x (done ++ rest)
  = (done ++ [Mosaic.data_at data (Mosaic.source_index r c y x 0);
              Mosaic.data_at data (Mosaic.source_index r c y x 1);
              Mosaic.data_at data (Mosaic.source_index r c y x 2)])
    ++ drop 3 rest.
Proof.
  intros Hdone Hrest.
  destruct rest as [|e0 [|e1 [|e2 rest]]]; try (cbn in Hrest; lia).
  unfold Mosaic.copy_pixel.
  rewrite (insert_app_r_alt done) by lia.
  replace (3 * (20 * y + x) + 0 - length done)%nat with 0%nat by lia.
  cbn [insert list_insert].
  rewrite (insert_app_r_alt done) by lia.
  replace (3 * (20 * y + x) + 1 - length done)%nat with 1%nat by lia.
  cbn [insert list_insert].
  rewrite (insert_app_r_alt done) by lia.
  replace (3 * (20 * y + x) + 2 - length done)%nat with 2%nat by lia.
  cbn [insert list_insert drop]. rewrite <- app_assoc. reflexivity.
Qed.

Lemma length_pixel_row data r c y (l : list nat) :
  length (flat_map
            (fun x => [Mosaic.data_at data (Mosaic.source_index r c y x 0);
                       Mosaic.data_at data (Mosaic.source_index r c y x 1);
                       Mosaic.data_at data (Mosaic.source_index r c y x 2)]) l)
  = (3 * length l)%nat.
Proof.
  induction l as [|x l IH]; [reflexivity|].
  cbn [flat_map length app]. rewrite IH. lia.
Qed.

(** The loop over [x] fills the array from left to right. *)
Lemma copy_row_fill data r c y n : forall x0 (done rest : list byte),
  length done = (3 * (20 * y + x0))%nat -> (3 * n <= length rest)%nat ->
  fold_left (fun pixels x => Mosaic.copy_pixel data r c y x pixels) (seq x0 n)
    (done ++ rest)
  = (done
     ++ flat_map
          (fun x => [Mosaic.data_at data (Mosaic.source_index r c y x 0);
                     Mosaic.data_at data (Mosaic.source_index r c y x 1);
                     Mosaic.data_at data (Mosaic.source_index r c y x 2)])
          (seq x0 n))
    ++ drop (3 * n) rest.
Proof.
  induction n as [|n IH]; intros x0 done rest Hdone Hrest.
  - cbn. rewrite app_nil_r. reflexivity.
  - cbn [seq fold_left flat_map].
    rewrite copy_pixel_fill by (try exact Hdone; lia).
    rewrite IH.
    + rewrite drop_drop. replace (3 + 3 * n)%nat with (3 * S n)%nat by lia.
      rewrite <- !app_assoc. reflexivity.
    + rewrite length_app, Hdone. cbn [length]. lia.
    + rewrite length_drop. lia.
Qed.

(** The loops over [y] and [x] fill the whole array, whatever it held. *)
Lemma copy_rows_fill data r c n : forall y0 (done rest : list byte),
  length done = (60 * y0)%nat -> (60 * n <= length rest)%nat ->
  fold_left
    (fun pixels y =>
       fold_left (fun pixels x => Mosaic.copy_pixel data r c y x pixels)
         (seq 0 20) pixels)
    (seq y0 n) (done ++ rest)
  = (done
     ++ flat_map
          (fun y =>
             flat_map
               (fun x => [Mosaic.data_at data (Mosaic.source_index r c y x 0);
                          Mosaic.data_at data (Mosaic.source_index r c y x 1);
                          Mosaic.data_at data (Mosaic.source_index r c y x 2)])
               (seq 0 20))
          (seq y0 n))
    ++ drop (60 * n) rest.
Proof.
  induction n as [|n IH]; intros y0 done rest Hdone Hrest.
  - cbn. rewrite app_nil_r. reflexivity.
  - change (seq y0 (S n)) with (y0 :: seq (S y0) n).
    cbn [fold_left]. rewrite copy_row_fill by lia.
    rewrite IH.
    + rewrite drop_drop. change (3 * 20)%nat with 60%nat.
      replace (60 + 60 * n)%nat with (60 * S n)%nat by lia.
      cbn [flat_map]. rewrite <- !app_assoc. reflexivity.
    + rewrite length_app, length_pixel_row, length_seq, Hdone. lia.
    + rewrite length_drop. lia.
Qed.

Lemma length_tile data r c : length (Mosaic.tile data r c) = (3 * 20 * 15)%nat.
Proof.
  unfold Mosaic.tile.
  assert (Hrows : forall l : list nat,
            length (flat_map
                      (fun y =>
                         flat_map
                           (fun x =>
                              [Mosaic.data_at data (Mosaic.source_index r c y x 0);
                               Mosaic.data_at data (Mosaic.source_index r c y x 1);
                               Mosaic.data_at data (Mosaic.source_index r c y x 2)])
                           (seq 0 20)) l)
            = (60 * length l)%nat).
  { induction l as [|y l IH]; [reflexivity|].
    cbn [flat_map]. rewrite length_app, length_pixel_row, length_seq, IH.
    cbn [length]. lia. }
  rewrite Hrows, length_seq. reflexivity.
Qed.

Lemma copy_tile_is_tile data r c (pixels_ : list byte) :
  length pixels_ = (3 * 20 * 15)%nat ->
  Mosaic.copy_tile data r c pixels_ = Mosaic.tile data r c.
Proof.
  intros Hlen. unfold Mosaic.copy_tile, Mosaic.tile.
  rewrite <- (app_nil_l pixels_) at 1.
  rewrite copy_rows_fill by (cbn [length]; lia).
  rewrite drop_ge by lia. rewrite app_nil_r. reflexivity.
Qed.

Lemma fold_left_cons_eq {A B} (f : A -> B -> A) (x : B) (l : list B) (a : A) :
  fold_left f (x :: l) a = fold_left f l (f a x).
Proof. reflexivity. Qed.

Lemma flat_map_cons_eq {A B} (f : A -> list B) (x : A) (l : list A) :
  flat_map f (x :: l) = f x ++ flat_map f l.
Proof. reflexivity. Qed.

(** The loop over [c] for one row of tiles. *)
Lemma Build_row_loop library_ data r n : forall c0 mosaic_ (pixels_ : list byte),
  length pixels_ = (3 * 20 * 15)%nat ->
  exists pixels',
    length pixels' = (3 * 20 * 15)%nat
    /\ fold_left
         (fun '(mosaic_, pixels) c =>
            (mosaic_
             ++ [ThumbnailLibrary.FindClosest library_
                   (Mosaic.copy_tile data r c pixels)],
             Mosaic.copy_tile data r c pixels))
         (seq c0 n) (mosaic_, pixels_)
       = (mosaic_
          ++ map (fun c => ThumbnailLibrary.FindClosest library_ (Mosaic.tile data r c))
               (seq c0 n),
          pixels').
Proof.
  induction n as [|n IH]; intros c0 mosaic_ pixels_ Hlen.
  - exists pixels_. cbn [seq fold_left map]. rewrite app_nil_r.
    split; [exact Hlen | reflexivity].
  - rewrite <- (cons_seq n c0). cbn [fold_left map].
    rewrite copy_tile_is_tile by exact Hlen.
    destruct (IH (S c0)
                (mosaic_ ++ [ThumbnailLibrary.FindClosest library_ (Mosaic.tile data r c0)])
                (Mosaic.tile data r c0) (length_tile data r c0))
      as (pixels' & Hlen' & Hfold).
    exists pixels'. split; [exact Hlen'|].
    rewrite Hfold, <- app_assoc. reflexivity.
Qed.

(** The loop over [r]. *)
Lemma Build_rows_loop library_ data n : forall r0 mosaic_ (pixels_ : list byte),
  length pixels_ = (3 * 20 * 15)%nat ->
  exists pixels',
    length pixels' = (3 * 20 * 15)%nat
    /\ fold_left
         (fun state r =>
            fold_left
              (fun '(mosaic_, pixels) c =>
                 (mosaic_
                  ++ [ThumbnailLibrary.FindClosest library_
                        (Mosaic.copy_tile data r c pixels)],
                  Mosaic.copy_tile data r c pixels))
              (seq 0 80) state)
         (seq r0 n) (mosaic_, pixels_)
       = (mosaic_
          ++ flat_map
               (fun r =>
                  map (fun c =>
                         ThumbnailLibrary.FindClosest library_ (Mosaic.tile data r c))
                    (seq 0 80))
               (seq r0 n),
          pixels').
Proof.
  induction n as [|n IH]; intros r0 mosaic_ pixels_ Hlen.
  - exists pixels_. cbn [seq fold_left flat_map]. rewrite app_nil_r.
    split; [exact Hlen | reflexivity].
  - rewrite <- (cons_seq n r0), fold_left_cons_eq, flat_map_cons_eq. cbv beta.
    destruct (Build_row_loop library_ data r0 80 0 mosaic_ pixels_ Hlen)
      as (pixels1 & Hlen1 & Hrow).
    rewrite Hrow.
    destruct (IH (S r0)
                (mosaic_
                 ++ map (fun c => ThumbnailLibrary.FindClosest library_
                                    (Mosaic.tile data r0 c)) (seq 0 80))
                pixels1 Hlen1) as (pixels' & Hlen' & Hfold).
    exists pixels'. split; [exact Hlen'|].
    rewrite Hfold, <- app_assoc. reflexivity.
Qed.

Lemma Build_rows library_ data :
  Mosaic.Build library_ data
  = flat_map
      (fun r =>
         map (fun c => ThumbnailLibrary.FindClosest library_ (Mosaic.tile data r c))
           (seq 0 80))
      (seq 0 80).
Proof.
  unfold Mosaic.Build.
  destruct (Build_rows_loop library_ data 80 0 [] (uninitialized (3 * 20 * 15))
              (length_uninitialized _)) as (pixels' & _ & Hfold).
  rewrite Hfold. reflexivity.
Qed.

(** Position [r * m + c] in a list made of [n] rows of [m] elements. *)
Lemma lookup_rows {A} (g : nat -> nat -> A) (m n : nat) : forall r0 r c,
  (r < n)%nat -> (c < m)%nat ->
  flat_map (fun r => map (g r) (seq 0 m)) (seq r0 n) !! (r * m + c)%nat
  = Some (g (r0 + r)%nat c).
Proof.
  induction n as [|n IH]; intros r0 r c Hr Hc; [lia|].
  cbn [seq flat_map]. destruct r as [|r].
  - rewrite lookup_app_l by (rewrite length_map, length_seq; lia).
    cbn [Nat.mul Nat.add].
    change (map (g r0) (seq 0 m)) with (g r0 <$> seq 0 m).
    rewrite list_lookup_fmap, lookup_seq_lt by lia.
    cbn. rewrite Nat.add_0_r. reflexivity.
  - rewrite lookup_app_r by (rewrite length_map, length_seq; lia).
    rewrite length_map, length_seq.
    replace (S r * m + c - m)%nat with (r * m + c)%nat by lia.
    rewrite IH by lia. f_equal. f_equal. lia.
Qed.

End MosaicFacts.

Section MosaicEntries.
Context `{Platform}.

(** Position [i * m + j] in a list made of [n] blocks of [m] elements. *)
Lemma lookup_flat_map_blocks {A} (f : nat -> list A) (m n : nat) :
  (forall i, length (f i) = m) ->
  forall i0 i j, (i < n)%nat -> (j < m)%nat ->
  flat_map f (seq i0 n) !! (i * m + j)%nat = f (i0 + i)%nat !! j.
Proof.
  intros Hlen. induction n as [|n IH]; intros i0 i j Hi Hj; [lia|].
  rewrite <- (cons_seq n i0), flat_map_cons_eq. destruct i as [|i].
  - rewrite lookup_app_l by (rewrite Hlen; lia).
    cbn [Nat.mul Nat.add]. rewrite Nat.add_0_r. reflexivity.
  - rewrite lookup_app_r by (rewrite Hlen; lia). rewrite Hlen.
    replace (S i * m + j - m)%nat with (i * m + j)%nat by lia.
    rewrite IH by lia. f_equal. f_equal. lia.
Qed.

Lemma length_flat_map_blocks {A} (f : nat -> list A) (m n : nat) :
  (forall i, length (f i) = m) ->
  forall i0, length (flat_map f (seq i0 n)) = (n * m)%nat.
Proof.
  intros Hlen. induction n as [|n IH]; intros i0; [reflexivity|].
  rewrite <- (cons_seq n i0), flat_map_cons_eq, length_app, Hlen, IH. lia.
Qed.

Lemma tile_lookup data r c y x k :
  (y < 15)%nat -> (x < 20)%nat -> (k < 3)%nat ->
  Mosaic.tile data r c !! (3 * (20 * y + x) + k)%nat
  = Some (Mosaic.data_at data (Mosaic.source_index r c y x k)).
Proof.
  intros Hy Hx Hk. unfold Mosaic.tile.
  replace (3 * (20 * y + x) + k)%nat with (y * 60 + (x * 3 + k))%nat by lia.
  rewrite (lookup_flat_map_blocks _ 60 15) by
    (try (intros; rewrite length_pixel_row, length_seq; reflexivity); lia).
  rewrite (lookup_flat_map_blocks _ 3 20) by (try reflexivity; lia).
  cbn [Nat.add].
  destruct k as [|[|[|k]]]; [reflexivity | reflexivity | reflexivity | lia].
Qed.

Lemma source_index_in_image r c y x k :
  (r < 80)%nat -> (c < 80)%nat -> (y < 15)%nat -> (x < 20)%nat -> (k < 3)%nat ->
  (Mosaic.source_index r c y x k < 3 * 1600 * 1200)%nat.
Proof. unfold Mosaic.source_index. cbv zeta. lia. Qed.

Lemma FindClosest_nil (pixels_ : list byte) :
  ThumbnailLibrary.FindClosest [] pixels_ = None.
Proof. reflexivity. Qed.

Lemma FindClosest_cases (thumbnails_ : list Thumbnail) (pixels_ : list byte) :
  thumbnails_ <> [] ->
  exists i, ThumbnailLibrary.FindClosest thumbnails_ pixels_ = Some i
            /\ (i < length thumbnails_)%nat.
Proof.
  intros Hne. rewrite FindClosest_unfold.
  pose proof (FindClosest_loop pixels_ (pixels <$> thumbnails_)) as Hloop.
  cbn zeta in Hloop.
  destruct (fst (fold_left _ _ _)) as [i|].
  - destruct Hloop as (p & Hp & _). exists i. split; [reflexivity|].
    apply lookup_lt_Some in Hp. rewrite length_fmap in Hp. exact Hp.
  - destruct Hloop as [Hnil _]. destruct thumbnails_; [congruence|discriminate].
Qed.

End MosaicEntries.

(** X18.  [Mosaic::Build] leaves one entry per tile, 80 x 80 of them.
    With an empty library every entry is a null pointer; with a library
    that holds at least one thumbnail every entry refers to one of its
    thumbnails. *)
Theorem Build_entries `{Platform} (library_ : list Thumbnail) (data : list byte) :
  length (Mosaic.Build library_ data) = (80 * 80)%nat
  /\ (library_ = [] -> Mosaic.Build library_ data = replicate (80 * 80) None)
  /\ (library_ <> [] ->
      Forall (fun entry => exists i, entry = Some i /\ (i < length library_)%nat)
        (Mosaic.Build library_ data)).
Proof.
  rewrite Build_rows. split; [|split].
  - apply length_flat_map_blocks. intros r. rewrite length_map. apply length_seq.
  - intros ->.
    rewrite (flat_map_ext _ (fun _ => replicate 80 None)); [reflexivity|].
    intros r.
    rewrite (map_ext _ (fun _ => None) (fun c => FindClosest_nil _)).
    reflexivity.
  - intros Hne. apply List.Forall_forall. intros entry Hin.
    apply in_flat_map in Hin as (r & _ & Hin).
    apply in_map_iff in Hin as (c & <- & _).
    destruct (FindClosest_cases library_ (Mosaic.tile data r c) Hne) as (i & Hi & Hlt).
    exists i. split; assumption.
Qed.

Lemma Build_entries_witness :
  @Mosaic.Build lp64_le [] (replicate (3 * 1600 * 1200) Byte.x00)
  = replicate (80 * 80) None.
Proof.
  apply (proj1 (proj2 (@Build_entries lp64_le []
                         (replicate (3 * 1600 * 1200) Byte.x00)))
           ltac:(reflexivity)).
Defined.

(** X19.  Entry [r * 80 + c] of the mosaic is the thumbnail closest to
    tile [(r, c)] of the image.  The tile's array holds, at position
    [3 * (20 * y + x) + k], the image character at
    [3 * (1600 * (r * 15 + y) + (c * 20 + x)) + k], and every such index
    lies inside a 1600 x 1200 image of three characters per pixel. *)
Theorem Build_entry_is_closest_to_tile `{Platform}
    (library_ : list Thumbnail) (data : list byte) (r c : nat) :
  (r < 80)%nat -> (c < 80)%nat ->
  Mosaic.Build library_ data !! (r * 80 + c)%nat
  = Some (ThumbnailLibrary.FindClosest library_ (Mosaic.tile data r c))
  /\ length (Mosaic.tile data r c) = (3 * 20 * 15)%nat
  /\ forall y x k, (y < 15)%nat -> (x < 20)%nat -> (k < 3)%nat ->
       Mosaic.tile data r c !! (3 * (20 * y + x) + k)%nat
       = Some (Mosaic.data_at data
                 (3 * (1600 * (r * 15 + y) + (c * 20 + x)) + k)%nat)
       /\ (3 * (1600 * (r * 15 + y) + (c * 20 + x)) + k < 3 * 1600 * 1200)%nat.
Proof.
  intros Hr Hc. split; [|split].
  - rewrite Build_rows.
    rewrite (lookup_rows
               (fun r c => ThumbnailLibrary.FindClosest library_ (Mosaic.tile data r c))
               80 80 0 r c Hr Hc).
    reflexivity.
  - apply length_tile.
  - intros y x k Hy Hx Hk. split.
    + apply (tile_lookup data r c y x k Hy Hx Hk).
    + apply (source_index_in_image r c y x k Hr Hc Hy Hx Hk).
Qed.

Lemma Build_entry_is_closest_to_tile_witness :
  @Mosaic.Build lp64_le [Thumbnail_zero] (replicate (3 * 1600 * 1200) Byte.x00)
    !! (79 * 80 + 79)%nat
  = Some (ThumbnailLibrary.FindClosest [Thumbnail_zero]
            (@Mosaic.tile (replicate (3 * 1600 * 1200) Byte.x00) 79 79)).
Proof.
  apply (proj1 (@Build_entry_is_closest_to_tile lp64_le [Thumbnail_zero]
                  (replicate (3 * 1600 * 1200) Byte.x00) 79 79
                  ltac:(lia) ltac:(lia))).
Defined.

(** ** Splitting the list of ignored directories *)

Lemma byte_eqb_refl c : Byte.eqb c c = true.
Proof. apply Byte.byte_dec_lb. reflexivity. Qed.

Lemma byte_eqb_neq c d : c <> d -> Byte.eqb c d = false.
Proof.
  intros Hne. destruct (Byte.eqb c d) eqn:E; [|reflexivity].
  apply Byte.byte_dec_bl in E. contradiction.
Qed.

(** A line never contains the delimiter. *)
Lemma extract_line_no_delim delim s : delim ∉ fst (extract_line s delim).
Proof.
  induction s as [|c s IH]; cbn [extract_line].
  - cbn. apply not_elem_of_nil.
  - destruct (Byte.eqb c delim) eqn:E; [cbn; apply not_elem_of_nil|].
    destruct (extract_line s delim) as [line rest]. cbn [fst] in *.
    apply not_elem_of_cons. split; [|exact IH].
    intros ->. rewrite byte_eqb_refl in E. discriminate.
Qed.

(** What is left after a line is shorter than what was there. *)
Lemma extract_line_rest delim s line rest :
  extract_line s delim = (line, Some rest) -> (length rest < length s)%nat.
Proof.
  revert line rest. induction s as [|c s IH]; intros line rest; cbn [extract_line].
  - discriminate.
  - destruct (Byte.eqb c delim).
    + intros [= _ <-]. cbn. lia.
    + destruct (extract_line s delim) as [line' rest'] eqn:E.
      intros [= _ ->]. specialize (IH _ _ eq_refl). cbn. lia.
Qed.

Lemma extract_line_field delim field rest :
  delim ∉ field ->
  extract_line (field ++ delim :: rest) delim = (field, Some rest).
Proof.
  induction field as [|c field IH]; intros Hno; cbn [app extract_line].
  - rewrite byte_eqb_refl. reflexivity.
  - apply not_elem_of_cons in Hno as [Hc Hno].
    rewrite byte_eqb_neq by congruence. rewrite IH by exact Hno. reflexivity.
Qed.

Lemma extract_line_last delim field :
  delim ∉ field -> extract_line field delim = (field, None).
Proof.
  induction field as [|c field IH]; intros Hno; cbn [extract_line]; [reflexivity|].
  apply not_elem_of_cons in Hno as [Hc Hno].
  rewrite byte_eqb_neq by congruence. rewrite IH by exact Hno. reflexivity.
Qed.

Lemma Split_loop_not_good fuel ss temp result delim :
  good (ss_state ss) = false ->
  Split_loop (S fuel) ss temp result delim = Some result.
Proof.
  intros Hg. cbn [Split_loop]. unfold getline. rewrite Hg.
  cbn [ss_state]. rewrite fail_ios_or.
  replace (fail only_failbit) with true by reflexivity.
  rewrite orb_true_r. reflexivity.
Qed.

(** The loop ends, and it only ever adds lines without the delimiter. *)
Lemma Split_loop_terminates delim fuel : forall ss temp result,
  (length (ss_unread ss) < fuel)%nat ->
  (forall x, x ∈ result -> delim ∉ x) ->
  exists final,
    Split_loop fuel ss temp result delim = Some final
    /\ forall x, x ∈ final -> delim ∉ x.
Proof.
  induction fuel as [|fuel IH]; intros ss temp result Hfuel Hres; [lia|].
  destruct (good (ss_state ss)) eqn:Hg.
  2: { rewrite Split_loop_not_good by exact Hg. exists result. split; [reflexivity|exact Hres]. }
  cbn [Split_loop]. unfold getline. rewrite Hg.
  pose proof (extract_line_no_delim delim (ss_unread ss)) as Hline.
  destruct (extract_line (ss_unread ss) delim) as [line [rest|]] eqn:E;
    cbn [fst] in Hline.
  - cbn [ss_state]. rewrite (good_not_fail _ Hg).
    apply IH.
    + cbn [ss_unread]. apply extract_line_rest in E. lia.
    + intros x Hx. apply elem_of_union in Hx as [Hx|Hx]; [|apply Hres, Hx].
      apply elem_of_singleton in Hx. subst x. exact Hline.
  - destruct line as [|c line]; cbn [ss_state]; rewrite fail_ios_or.
    + replace (fail eof_and_fail) with true by reflexivity.
      rewrite orb_true_r. exists result. split; [reflexivity|exact Hres].
    + rewrite (good_not_fail _ Hg). cbn [fail only_eofbit failbit badbit orb].
      assert (Hlen : (0 < length (ss_unread ss))%nat).
      { destruct (ss_unread ss); [cbn in E; discriminate | cbn; lia]. }
      destruct fuel as [|fuel]; [lia|].
      rewrite Split_loop_not_good by apply good_ios_or_eofbit_only.
      eexists. split; [reflexivity|].
      intros x Hx. apply elem_of_union in Hx as [Hx|Hx]; [|apply Hres, Hx].
      apply elem_of_singleton in Hx. subst x. exact Hline.
Qed.

(** The loop on a stream that holds joined fields. *)
Lemma Split_loop_join delim fields : forall fuel ss temp result,
  good (ss_state ss) = true ->
  ss_unread ss = join delim fields ->
  Forall (fun field => delim ∉ field) fields ->
  last fields <> Some [] ->
  (length fields < fuel)%nat ->
  Split_loop fuel ss temp result delim = Some (list_to_set fields ∪ result).
Proof.
  induction fields as [|field rest IH]; intros fuel ss temp result Hg Hu Hno Hlast Hfuel.
  - destruct fuel as [|fuel]; [cbn in Hfuel; lia|].
    cbn [Split_loop]. unfold getline. rewrite Hg, Hu. cbn [join extract_line ss_state].
    rewrite fail_ios_or. replace (fail eof_and_fail) with true by reflexivity.
    rewrite orb_true_r. f_equal. set_solver.
  - destruct fuel as [|fuel]; [cbn in Hfuel; lia|].
    apply Forall_cons in Hno as [Hfield Hno].
    cbn [Split_loop]. unfold getline. rewrite Hg, Hu.
    destruct rest as [|next rest].
    + cbn [join]. rewrite extract_line_last by exact Hfield.
      destruct field as [|c field]; [cbn in Hlast; congruence|].
      cbn [ss_state]. rewrite fail_ios_or, (good_not_fail _ Hg).
      cbn [fail only_eofbit failbit badbit orb].
      destruct fuel as [|fuel]; [cbn in Hfuel; lia|].
      rewrite Split_loop_not_good by apply good_ios_or_eofbit_only.
      f_equal. set_solver.
    + change (join delim (field :: next :: rest))
        with (field ++ delim :: join delim (next :: rest)).
      rewrite extract_line_field by exact Hfield.
      cbn [ss_state]. rewrite (good_not_fail _ Hg).
      rewrite (IH fuel); try assumption; try reflexivity.
      * f_equal. set_solver.
      * cbn [length] in Hfuel |- *. lia.
Qed.

Lemma length_join delim fields :
  last fields <> Some [] -> (length fields <= length (join delim fields))%nat.
Proof.
  induction fields as [|field rest IH]; intros Hlast; [cbn; lia|].
  destruct rest as [|next rest].
  - cbn [join length]. destruct field; [cbn in Hlast; congruence|cbn; lia].
  - change (join delim (field :: next :: rest))
      with (field ++ delim :: join delim (next :: rest)).
    rewrite length_app. cbn [length].
    specialize (IH Hlast). cbn [length] in IH. lia.
Qed.

(** X20.  [Split] undoes joining: for fields that do not contain the
    delimiter, the last of them not empty, splitting the joined string
    gives exactly the set of the fields.  (An empty last field, as after
    a trailing delimiter, would be dropped.) *)
Theorem Split_of_joined_fields (delim : byte) (fields : list (list byte)) :
  Forall (fun field => delim ∉ field) fields ->
  last fields <> Some [] ->
  Split (join delim fields) delim = Some (list_to_set fields).
Proof.
  intros Hno Hlast. unfold Split.
  rewrite (Split_loop_join delim fields); try assumption; try reflexivity.
  - f_equal. set_solver.
  - pose proof (length_join delim fields Hlast). lia.
Qed.

Lemma Split_of_joined_fields_witness :
  Split (join Byte.x2c [[Byte.x61]; []; [Byte.x62; Byte.x63]]) Byte.x2c
  = Some (list_to_set [[Byte.x61]; []; [Byte.x62; Byte.x63]]).
Proof.
  apply (Split_of_joined_fields Byte.x2c [[Byte.x61]; []; [Byte.x62; Byte.x63]]
           ltac:(repeat constructor; vm_compute; set_solver)
           ltac:(vm_compute; discriminate)).
Defined.

(** X21.  [Split] comes to an end on every string, no element of its
    result contains the delimiter, and the empty string gives the empty
    set. *)
Theorem Split_terminates (str : list byte) (delim : byte) :
  (exists result,
     Split str delim = Some result
     /\ forall x, x ∈ result -> delim ∉ x)
  /\ Split [] delim = Some ∅.
Proof.
  split; [|reflexivity].
  unfold Split. apply Split_loop_terminates; [cbn; lia|].
  intros x Hx. apply not_elem_of_empty in Hx. destruct Hx.
Qed.

Lemma Split_terminates_witness :
  exists result,
    Split [Byte.x61; Byte.x2c; Byte.x2c; Byte.x62; Byte.x2c] Byte.x2c = Some result
    /\ forall x, x ∈ result -> Byte.x2c ∉ x.
Proof.
  apply (proj1 (Split_terminates
                  [Byte.x61; Byte.x2c; Byte.x2c; Byte.x62; Byte.x2c] Byte.x2c)).
Defined.
